(** * The puppet-module install distributor of pulp_puppet

    A shallow embedding of
    [pulp_puppet/plugins/distributors/installdistributor.py]: the
    [DetailReport] accumulator, the lexical path-safety check, the
    clearing of the destination and [publish_repo] itself, together with
    the properties of the install operation.

    The Python code talks to the operating system through [tarfile],
    [os] and [shutil].  Those calls are the primitives of the embedding:
    the program is written over an interface [OS] of such calls, every
    general theorem holds for every implementation of the interface, and
    an in-memory file system implements it for the statements that are
    about directory contents. *)

From Stdlib Require Import Ascii String.
From stdpp Require Import gmap strings list fin_maps.

Open Scope string_scope.
Open Scope list_scope.

(** ** Python strings and [posixpath] *)

Module Py.

(** [s.startswith(p)] *)
Definition startswith (s p : string) : bool := String.prefix p s.

(** [s.endswith(suffix)]: [s] is [suffix], or its tail ends with it. *)
Fixpoint endswith (s suffix : string) : bool :=
  String.eqb s suffix ||
  match s with
  | EmptyString => false
  | String _ s' => endswith s' suffix
  end.

(** [s.split(sep)] for a one-character separator: never the empty list. *)
Fixpoint split (sep : ascii) (s : string) : list string :=
  match s with
  | EmptyString => [EmptyString]
  | String c s' =>
      if Ascii.eqb c sep then EmptyString :: split sep s'
      else match split sep s' with
           | x :: xs => String c x :: xs
           | [] => [String c EmptyString]
           end
  end.

(** [sep.join(comps)] *)
Fixpoint str_join (sep : string) (comps : list string) : string :=
  match comps with
  | [] => EmptyString
  | [c] => c
  | c :: cs => c +:+ sep +:+ str_join sep cs
  end.

(** [posixpath.join(a, b)] with one component [b]. *)
Definition join (a b : string) : string :=
  if startswith b "/" then b
  else if String.eqb a "" || endswith a "/" then a +:+ b
  else a +:+ "/" +:+ b.

(** One turn of the loop of [posixpath.normpath]: [initial_slashes] is
    0, 1 or 2, [new_comps] the components kept so far. *)
Definition normpath_step (initial_slashes : nat) (new_comps : list string)
    (comp : string) : list string :=
  if String.eqb comp "" || String.eqb comp "." then new_comps
  else if negb (String.eqb comp "..")
          || (Nat.eqb initial_slashes 0 && bool_decide (new_comps = []))
          || bool_decide (last new_comps = Some "..")
       then new_comps ++ [comp]
       else removelast new_comps.

Definition normpath_comps (initial_slashes : nat) (path : string) : list string :=
  fold_left (normpath_step initial_slashes) (split "/"%char path) [].

(** POSIX allows one or two initial slashes, three or more count as one. *)
Definition initial_slashes (path : string) : nat :=
  if startswith path "/" then
    if startswith path "//" && negb (startswith path "///") then 2 else 1
  else 0.

Fixpoint slashes (n : nat) : string :=
  match n with
  | O => EmptyString
  | S n' => "/" +:+ slashes n'
  end.

(** [posixpath.normpath(path)]: purely lexical, no file-system access. *)
Definition normpath (path : string) : string :=
  if String.eqb path "" then "."
  else
    let n := initial_slashes path in
    let path' := slashes n +:+ str_join "/" (normpath_comps n path) in
    if String.eqb path' "" then "." else path'.

End Py.


(** ** Exceptions, results and the operating-system interface *)

(** The handlers of the module catch [(OSError, IOError)] and nothing
    else: both are [EnvironmentError]s, carried here with their [str(e)].
    Every other exception ([tarfile.ReadError] on a file that is no
    archive, say) passes through them. *)
Inductive exn :=
  | EnvironmentError (msg : string)
  | OtherException (msg : string).

Inductive result (A : Type) :=
  | Ok (a : A)
  | Raise (e : exn).
Arguments Ok {A} a.
Arguments Raise {A} e.

(** The calls the module makes into [tarfile], [os] and [shutil], as
    functions of the state of the world.  Opening an archive for reading,
    listing its names and the queries of [os] leave the world as it is;
    [extractall] and [rmtree] return the world they leave behind, also
    when they raise. *)
Class OS (World : Type) := {
  handle : Type;
  sys_open : string → World → result handle;
  sys_getnames : handle → World → result (list string);
  sys_extractall : handle → string → World → result unit * World;
  sys_listdir : string → World → result (list string);
  sys_isdir : string → World → bool;
  sys_rmtree : string → World → result unit * World;
}.

Abbreviation loc := positive.

(** ** The data of the module *)

(** [pulp.plugins.model.AssociatedUnit], as far as the module reads it.
    The unit key is an opaque value of type [K]. *)
Record AssociatedUnit (K : Type) := {
  unit_key : K;
  storage_path : string;
}.
Arguments unit_key {K} _.
Arguments storage_path {K} _.

(** The dict [DetailReport.report]: [success_unit_keys] and [errors]. *)
Record DetailReport (K : Type) := {
  success_unit_keys : list K;
  errors : list (K * string);
}.
Arguments Build_DetailReport {K} _ _.
Arguments success_unit_keys {K} _.
Arguments errors {K} _.

(** [pulp.plugins.model.PublishReport(success_flag, summary, details)]:
    [details] is the very dict it was built with, not a copy. *)
Record PublishReport := {
  success_flag : bool;
  summary : string;
  details : loc;
}.

Record Repository := { repo_id : string }.

(** [RepoPublishConduit]: [get_units] answers a criteria of type ids. *)
Record RepoPublishConduit (K : Type) := {
  get_units : list string → list (AssociatedUnit K);
}.
Arguments get_units {K} _ _.

Definition build_failure_report (summary : string) (details : loc) : PublishReport :=
  {| success_flag := false; summary := summary; details := details |}.

Definition build_success_report (summary : string) (details : loc) : PublishReport :=
  {| success_flag := true; summary := summary; details := details |}.

(** An instance of [PuppetModuleInstallDistributor] holds a reference to
    its detail report. *)
Record PuppetModuleInstallDistributor := { detail_report : loc }.

Definition ERROR_MESSAGE_PATH : string :=
  "one or more units contains a path outside its base extraction path".

Section Distributor.

Context {K : Type} {World : Type} `{!OS World}.

(** [tarfile.TarFile]: the name it was opened with and the open file. *)
Record TarFile := { name : string; fileobj : handle }.

(** Every call into the libraries and into the detail report is logged,
    in order. *)
Inductive call :=
  | call_open (path : string)
  | call_getnames (path : string)
  | call_extractall (path destination : string)
  | call_close (path : string)
  | call_listdir (path : string)
  | call_isdir (path : string)
  | call_rmtree (path : string)
  | call_success (key : K)
  | call_error (key : K) (msg : string).

(** The store of report dicts, the world outside and the log of calls. *)
Record state := {
  heap : gmap loc (DetailReport K);
  world : World;
  trace : list call;
}.

Definition M (A : Type) : Type := state → result A * state.

#[export] Instance M_ret : MRet M := λ A a σ, (Ok a, σ).

#[export] Instance M_bind : MBind M := λ A B f m σ,
  match m σ with
  | (Ok a, σ') => f a σ'
  | (Raise e, σ') => (Raise e, σ')
  end.

Definition log (c : call) : M unit := λ σ,
  (Ok (), {| heap := heap σ; world := world σ; trace := trace σ ++ [c] |}).

(** [query f]: a call that reads the world; [command f]: one that may
    change it. *)
Definition query {A} (f : World → result A) : M A := λ σ, (f (world σ), σ).

Definition command {A} (f : World → result A * World) : M A := λ σ,
  let (r, w) := f (world σ) in
  (r, {| heap := heap σ; world := w; trace := trace σ |}).

(** [try: m except (OSError, IOError), e: h (str e)] *)
Definition try_except {A} (m : M A) (h : string → M A) : M A := λ σ,
  match m σ with
  | (Raise (EnvironmentError msg), σ') => h msg σ'
  | r => r
  end.

(** [try: m finally: f] *)
Definition try_finally {A} (m : M A) (f : M unit) : M A := λ σ,
  let (r, σ') := m σ in
  match f σ' with
  | (Ok _, σ'') => (r, σ'')
  | (Raise e, σ'') => (Raise e, σ'')
  end.

(** [for x in xs: body x] *)
Fixpoint for_each {A} (xs : list A) (body : A → M unit) : M unit :=
  match xs with
  | [] => mret ()
  | x :: xs' => body x ;; for_each xs' body
  end.

(** *** The library calls *)

Definition tarfile_open (path : string) : M TarFile :=
  log (call_open path) ;;
  h ← query (sys_open path);
  mret {| name := path; fileobj := h |}.

Definition getnames (archive : TarFile) : M (list string) :=
  log (call_getnames (name archive)) ;;
  query (sys_getnames (fileobj archive)).

Definition extractall (archive : TarFile) (destination : string) : M unit :=
  log (call_extractall (name archive) destination) ;;
  command (sys_extractall (fileobj archive) destination).

(** Closing a handle that was opened for reading returns normally. *)
Definition close (archive : TarFile) : M unit :=
  log (call_close (name archive)).

Definition os_listdir (path : string) : M (list string) :=
  log (call_listdir path) ;; query (sys_listdir path).

Definition os_path_isdir (path : string) : M bool :=
  log (call_isdir path) ;; query (λ w, Ok (sys_isdir path w)).

Definition shutil_rmtree (path : string) : M unit :=
  log (call_rmtree path) ;; command (sys_rmtree path).

(** *** class DetailReport *)

Definition empty_report : DetailReport K :=
  {| success_unit_keys := []; errors := [] |}.

(** [DetailReport.__init__]: a new dict. *)
Definition DetailReport_init : M loc := λ σ,
  let l := fresh (dom (heap σ)) in
  (Ok l, {| heap := <[l := empty_report]> (heap σ);
            world := world σ; trace := trace σ |}).

Definition append_success (unit_key : K) (r : DetailReport K) : DetailReport K :=
  {| success_unit_keys := success_unit_keys r ++ [unit_key];
     errors := errors r |}.

Definition append_error (unit_key : K) (error_message : string)
    (r : DetailReport K) : DetailReport K :=
  {| success_unit_keys := success_unit_keys r;
     errors := errors r ++ [(unit_key, error_message)] |}.

Definition update_report (l : loc) (f : DetailReport K → DetailReport K) : M unit :=
  λ σ, (Ok (), {| heap := alter f l (heap σ); world := world σ; trace := trace σ |}).

(** [self.report['success_unit_keys'].append(unit_key)] *)
Definition success (l : loc) (unit_key : K) : M unit :=
  log (call_success unit_key) ;;
  update_report l (append_success unit_key).

(** [self.report['errors'].append((unit_key, error_message))] *)
Definition error (l : loc) (unit_key : K) (error_message : string) : M unit :=
  log (call_error unit_key error_message) ;;
  update_report l (append_error unit_key error_message).

Definition report_has_errors (r : DetailReport K) : bool :=
  match errors r with [] => false | _ :: _ => true end.

(** [bool(self.report['errors'])] *)
Definition has_errors (l : loc) : M bool := λ σ,
  (Ok (from_option report_has_errors false (heap σ !! l)), σ).

(** *** class PuppetModuleInstallDistributor *)

Definition PuppetModuleInstallDistributor_init : M PuppetModuleInstallDistributor :=
  l ← DetailReport_init;
  mret {| detail_report := l |}.

(** The loop of [_archive_paths_are_safe]: the local [destination] gets
    its trailing slash inside the loop, after the first join. *)
Fixpoint paths_are_safe (destination : string) (names : list string) : bool :=
  match names with
  | [] => true
  | name :: names' =>
      let result := Py.normpath (Py.join destination name) in
      let destination :=
        if negb (Py.endswith destination "/") then destination +:+ "/"
        else destination in
      if negb (Py.startswith result destination) then false
      else paths_are_safe destination names'
  end.

Definition _archive_paths_are_safe (destination : string) (archive : TarFile) : M bool :=
  names ← getnames archive;
  mret (paths_are_safe destination names).

(** The body of the loop of [_check_for_unsafe_archive_paths]. *)
Definition check_archive (self : PuppetModuleInstallDistributor)
    (destination : string) : AssociatedUnit K → M unit := λ unit,
  try_except
    (archive ← tarfile_open (storage_path unit);
     try_finally
       (safe ← _archive_paths_are_safe destination archive;
        if negb safe
        then error (detail_report self) (unit_key unit) ERROR_MESSAGE_PATH
        else mret ())
       (close archive))
    (λ e, error (detail_report self) (unit_key unit) e).

Definition _check_for_unsafe_archive_paths (self : PuppetModuleInstallDistributor)
    (units : list (AssociatedUnit K)) (destination : string) : M unit :=
  for_each units (check_archive self destination).

Definition _clear_destination_directory (destination : string) : M unit :=
  names ← os_listdir destination;
  for_each names (λ directory,
    let path := Py.join destination directory in
    isdir ← os_path_isdir path;
    if (isdir : bool) then shutil_rmtree path else mret ()).

(** The body of the publishing loop of [publish_repo]. *)
Definition publish_unit (self : PuppetModuleInstallDistributor)
    (destination : string) : AssociatedUnit K → M unit := λ unit,
  try_except
    (archive ← tarfile_open (storage_path unit);
     try_finally (extractall archive destination) (close archive) ;;
     success (detail_report self) (unit_key unit))
    (λ e, error (detail_report self) (unit_key unit) e).

(** The two constants of [pulp_puppet.common.constants] the method uses. *)
Variable CONFIG_INSTALL_PATH : string.
Variable TYPE_PUPPET_MODULE : string.

Definition publish_repo (self : PuppetModuleInstallDistributor)
    (repo : Repository) (publish_conduit : RepoPublishConduit K)
    (config : gmap string string) : M PublishReport :=
  match config !! CONFIG_INSTALL_PATH with
  | None | Some EmptyString =>
      mret (build_failure_report "install path not provided" (detail_report self))
  | Some destination =>
      let units := get_units publish_conduit [TYPE_PUPPET_MODULE] in
      (* check for unsafe paths in tarballs, and fail early *)
      _check_for_unsafe_archive_paths self units destination ;;
      e ← has_errors (detail_report self);
      if (e : bool) then mret (build_failure_report "failed" (detail_report self))
      else
        (* clear out pre-existing contents *)
        cleared ← try_except
          (_clear_destination_directory destination ;; mret None)
          (λ e, mret (Some (build_failure_report
                   ("failed to clear destination directory: " +:+ e)
                   (detail_report self))));
        match (cleared : option PublishReport) with
        | Some report => mret report
        | None =>
            (* actually publish *)
            for_each units (publish_unit self destination) ;;
            e ← has_errors (detail_report self);
            if (e : bool) then mret (build_failure_report "failed" (detail_report self))
            else mret (build_success_report "success" (detail_report self))
        end
  end.

End Distributor.


(** ** [validate_config] *)

(** What [config.get] can return for a key that is there: a string, or
    a value of another type. *)
Inductive config_value :=
  | Str (s : string)
  | NotStr.

(** [os.access(path, mode)], beside the calls of [OS]. *)
Class Access (World : Type) := {
  sys_access : string → nat → World → bool;
}.

Definition R_OK : nat := 4.
Definition W_OK : nat := 2.
Definition X_OK : nat := 1.

Module PyPath.

(** [posixpath.isabs(s)] *)
Definition isabs (s : string) : bool := Py.startswith s "/".

End PyPath.

Section ValidateConfig.

Context {World : Type} `{!OS World} `{!Access World}.

Variable CONFIG_INSTALL_PATH : string.

(** The method reads the world and changes nothing; its messages are
    the untranslated ones.  It answers the pair [(bool, str or None)]. *)
Definition validate_config (repo : Repository) (config : gmap string config_value)
    (related_repos : list Repository) (w : World) : bool * option string :=
  match config !! CONFIG_INSTALL_PATH with
  | Some (Str path) =>
      if negb (PyPath.isabs path) then
        (false, Some "install path is not absolute")
      else if negb (sys_isdir path w) then
        (false, Some "install path is not an existing directory")
      else if negb (sys_access path (Nat.lor (Nat.lor R_OK W_OK) X_OK) w) then
        (false, Some ("the current user does not have permission to read "
                      +:+ "and write files in the destination directory"))
      else (true, None)
  | _ =>
      (* path not here, nothing else to validate *)
      (true, None)
  end.

(** The configuration [publish_repo] sees when every value is a string. *)
Definition strings_of (config : gmap string config_value) : gmap string string :=
  omap (λ v, match v with Str s => Some s | NotStr => None end) config.

End ValidateConfig.

(** ** The vocabulary of the properties *)

(** *** The path-safety check, as the specification words it *)

(** [destination], normalized to end with a path separator. *)
Definition with_trailing_separator (destination : string) : string :=
  if Py.endswith destination "/" then destination else destination +:+ "/".

(** The entry name [n] escapes [destination]: the lexical resolution of
    the join does not have the destination, ending with a separator, as a
    literal string prefix. *)
Definition escapes (destination n : string) : bool :=
  negb (Py.startswith (Py.normpath (Py.join destination n))
          (with_trailing_separator destination)).

Definition IsSafe (destination : string) (entryNames : list string) : bool :=
  forallb (λ n, negb (escapes destination n)) entryNames.

Section Vocabulary.

Context {K : Type} {World : Type} `{!OS World}.

(** *** What a log says about the report *)

Definition successes_in (t : list (@call K)) : list K :=
  omap (λ c, match c with call_success k => Some k | _ => None end) t.

Definition errors_in (t : list (@call K)) : list (K * string) :=
  omap (λ c, match c with call_error k msg => Some (k, msg) | _ => None end) t.

(** The report after the calls of [t] were made on it. *)
Definition replay (t : list (@call K)) (r : DetailReport K) : DetailReport K :=
  {| success_unit_keys := success_unit_keys r ++ successes_in t;
     errors := errors r ++ errors_in t |}.

(** The state after a run that logged [t] and left the world [w]: the
    report [l] of the distributor is the only dict that changes. *)
Definition after (l : loc) (σ : @state K World) (t : list call) (w : World) : state :=
  {| heap := alter (replay t) l (heap σ); world := w; trace := trace σ ++ t |}.

(** The archives that were opened, in order. *)
Definition opened (t : list (@call K)) : list string :=
  omap (λ c, match c with call_open p => Some p | _ => None end) t.

(** The calls of the check phase: they read archives and record errors. *)
Definition is_inspection (c : @call K) : bool :=
  match c with
  | call_open _ | call_getnames _ | call_close _ | call_error _ _ => true
  | _ => false
  end.

(** The calls of the clearing phase. *)
Definition is_clearing (c : @call K) : bool :=
  match c with
  | call_listdir _ | call_isdir _ | call_rmtree _ => true
  | _ => false
  end.

Definition is_extractall (c : @call K) : bool :=
  match c with call_extractall _ _ => true | _ => false end.

(** The invariant of the detail report: no unit key twice, in either
    sequence or across them. *)
Definition report_invariant (r : DetailReport K) : Prop :=
  NoDup (success_unit_keys r ++ (errors r).*1).

(** A distributor as [__init__] leaves it. *)
Definition newly_created (self : PuppetModuleInstallDistributor) (σ : @state K World) : Prop :=
  heap σ !! detail_report self = Some empty_report.

(** *** What the operating system answers *)

(** The check of one unit in the world [w]: [Ok None] when every path
    of its archive is safe, [Ok (Some msg)] when the unit gets the error
    [msg], [Raise e] when an exception other than an I/O error leaves
    the loop. *)
Definition check_unit (destination : string) (w : World) (u : AssociatedUnit K)
    : result (option string) :=
  match sys_open (storage_path u) w with
  | Raise (EnvironmentError msg) => Ok (Some msg)
  | Raise e => Raise e
  | Ok h =>
      match sys_getnames h w with
      | Raise (EnvironmentError msg) => Ok (Some msg)
      | Raise e => Raise e
      | Ok names =>
          Ok (if paths_are_safe destination names then None
              else Some ERROR_MESSAGE_PATH)
      end
  end.

Definition check_errors (destination : string) (w : World)
    (units : list (AssociatedUnit K)) : list (K * string) :=
  omap (λ u, match check_unit destination w u with
             | Ok (Some msg) => Some (unit_key u, msg)
             | _ => None
             end) units.

(** Opening and extracting the archive of one unit. *)
Definition extract_unit (destination : string) (u : AssociatedUnit K) (w : World)
    : result unit * World :=
  match sys_open (storage_path u) w with
  | Raise e => (Raise e, w)
  | Ok h => sys_extractall h destination w
  end.

(** The outcome for every unit, each extracted in the world the units
    before it left, and the world after the last. *)
Fixpoint extraction (destination : string) (units : list (AssociatedUnit K))
    (w : World) : list (result unit) * World :=
  match units with
  | [] => ([], w)
  | u :: units' =>
      let (r, w') := extract_unit destination u w in
      let (rs, w'') := extraction destination units' w' in
      (r :: rs, w'')
  end.

Definition is_io_error {A} (r : result A) : bool :=
  match r with Raise (EnvironmentError _) => true | _ => false end.

Definition is_ok {A} (r : result A) : bool :=
  match r with Ok _ => true | _ => false end.

(** The keys of the units whose outcome is [Ok], and the keys and
    messages of those that failed with an I/O error. *)
Definition succeeded (units : list (AssociatedUnit K)) (outcomes : list (result unit))
    : list K :=
  omap (λ ur, if is_ok ur.2 then Some (unit_key ur.1) else None) (zip units outcomes).

Definition failed (units : list (AssociatedUnit K)) (outcomes : list (result unit))
    : list (K * string) :=
  omap (λ ur, match ur.2 with
              | Raise (EnvironmentError msg) => Some (unit_key ur.1, msg)
              | _ => None
              end) (zip units outcomes).

(** How many outcomes are I/O errors. *)
Definition io_failures (outcomes : list (result unit)) : nat :=
  length (List.filter is_io_error outcomes).

(** The clearing of the destination, on worlds. *)
Fixpoint clear_children (destination : string) (names : list string) (w : World)
    : result unit * World :=
  match names with
  | [] => (Ok (), w)
  | directory :: names' =>
      let path := Py.join destination directory in
      if sys_isdir path w then
        match sys_rmtree path w with
        | (Ok _, w') => clear_children destination names' w'
        | (Raise e, w') => (Raise e, w')
        end
      else clear_children destination names' w
  end.

Definition clear_world (destination : string) (w : World) : result unit * World :=
  match sys_listdir destination w with
  | Raise e => (Raise e, w)
  | Ok names => clear_children destination names w
  end.

End Vocabulary.

(** ** Notions the proofs use *)

Section Notions.

Context {K : Type} {World : Type} `{!OS World}.
Implicit Types (σ : @state K World) (t : list (@call K)) (w : World) (l : loc).

(** [runs l m σ r t w]: from [σ] the computation [m] ends with [r],
    having made the calls [t] and left the world [w]. *)
Definition runs l {A} (m : M A) σ (res : result A) t w : Prop :=
  m σ = (res, after l σ t w).

(** The result of the check of one unit, and the error it records. *)
Definition check_unit_result {A} (v : result A) : result unit :=
  match v with Ok _ => Ok () | Raise e => Raise e end.

Definition check_unit_errors (k : K) (v : result (option string)) : list (K * string) :=
  match v with Ok (Some msg) => [(k, msg)] | _ => [] end.

(** The directories a log removes. *)
Definition removed (t : list (@call K)) : list string :=
  omap (λ c, match c with call_rmtree p => Some p | _ => None end) t.


(** What the loop does with the outcome of one unit: an I/O error is
    recorded and the loop goes on, any other exception leaves it. *)
Definition publish_unit_result (r : result unit) : result unit :=
  match r with
  | Raise (OtherException msg) => Raise (OtherException msg)
  | _ => Ok ()
  end.

Definition no_clearing (c : @call K) : bool := negb (is_clearing c).

(** The value of [self.detail_report.has_errors] in the state [σ]. *)
Definition errs (self : PuppetModuleInstallDistributor) σ : bool :=
  from_option report_has_errors false (heap σ !! detail_report self).

End Notions.

(** ** The ways a run of [publish_repo] can end *)

Section Outcomes.

Context {K : Type} {World : Type} `{!OS World}.
Variables CONFIG_INSTALL_PATH TYPE_PUPPET_MODULE : string.
Implicit Types (σ : @state K World) (t : list (@call K)) (w : World).

(** A call of the check phase or of the clearing phase. *)
Definition before_publishing (c : @call K) : bool := is_inspection c || is_clearing c.

(** [publish_outcome self conduit config σ res σ']: the run from [σ]
    ends with [res] in [σ'].  The constructors follow the returns and
    the uncaught exceptions of the method, in the order of its text. *)
Inductive publish_outcome (self : PuppetModuleInstallDistributor)
    (publish_conduit : RepoPublishConduit K) (config : gmap string string) σ
    : result PublishReport → @state K World → Prop :=
  | ends_not_provided :
      config !! CONFIG_INSTALL_PATH = None
      ∨ config !! CONFIG_INSTALL_PATH = Some "" →
      publish_outcome self publish_conduit config σ
        (Ok (build_failure_report "install path not provided" (detail_report self))) σ
  | ends_check_raised destination t e :
      config !! CONFIG_INSTALL_PATH = Some destination → destination ≠ "" →
      forallb is_inspection t = true → successes_in t = [] →
      publish_outcome self publish_conduit config σ
        (Raise e) (after (detail_report self) σ t (world σ))
  | ends_check_failed destination t :
      config !! CONFIG_INSTALL_PATH = Some destination → destination ≠ "" →
      forallb is_inspection t = true → successes_in t = [] →
      errs self (after (detail_report self) σ t (world σ)) = true →
      publish_outcome self publish_conduit config σ
        (Ok (build_failure_report "failed" (detail_report self)))
        (after (detail_report self) σ t (world σ))
  | ends_clear_failed destination t msg w' :
      config !! CONFIG_INSTALL_PATH = Some destination → destination ≠ "" →
      forallb before_publishing t = true →
      successes_in t = [] → errors_in t = [] →
      errs self σ = false →
      clear_world destination (world σ) = (Raise (EnvironmentError msg), w') →
      publish_outcome self publish_conduit config σ
        (Ok (build_failure_report
               ("failed to clear destination directory: " +:+ msg)
               (detail_report self)))
        (after (detail_report self) σ t w')
  | ends_clear_raised destination t msg w' :
      config !! CONFIG_INSTALL_PATH = Some destination → destination ≠ "" →
      forallb before_publishing t = true →
      successes_in t = [] → errors_in t = [] →
      errs self σ = false →
      clear_world destination (world σ) = (Raise (OtherException msg), w') →
      publish_outcome self publish_conduit config σ
        (Raise (OtherException msg)) (after (detail_report self) σ t w')
  | ends_publish_raised destination t e w1 w' :
      config !! CONFIG_INSTALL_PATH = Some destination → destination ≠ "" →
      errs self σ = false →
      clear_world destination (world σ) = (Ok (), w1) →
      publish_outcome self publish_conduit config σ
        (Raise e) (after (detail_report self) σ t w')
  | ends_published destination t w1 w' :
      config !! CONFIG_INSTALL_PATH = Some destination → destination ≠ "" →
      errs self σ = false →
      clear_world destination (world σ) = (Ok (), w1) →
      publish_outcome self publish_conduit config σ
        (Ok (if errs self (after (detail_report self) σ t w')
             then build_failure_report "failed" (detail_report self)
             else build_success_report "success" (detail_report self)))
        (after (detail_report self) σ t w').

End Outcomes.

(** ** The archive in use *)

Section Handles.

Context {K : Type} {World : Type} `{!OS World}.

(** Where a log of calls leaves the archive of the moment: none is
    open, [tarfile.open] was called on a path, or the archive it
    returned was read or extracted and is not closed yet. *)
Inductive handle_state :=
  | no_archive
  | opening (path : string)
  | in_use (path : string).

(** One call on: an archive is read or extracted right after the call
    that opens it, and while it is in use the only calls are records of
    errors, until it is closed. *)
Definition handle_step (s : handle_state) (c : @call K) : option handle_state :=
  match s, c with
  | no_archive, call_open p => Some (opening p)
  | no_archive, (call_getnames _ | call_extractall _ _ | call_close _) => None
  | no_archive, _ => Some no_archive
  | opening p, (call_getnames q | call_extractall q _) =>
      if String.eqb p q then Some (in_use p) else None
  | opening _, call_error _ _ => Some no_archive
  | opening _, _ => None
  | in_use p, call_close q => if String.eqb p q then Some no_archive else None
  | in_use p, call_error _ _ => Some (in_use p)
  | in_use _, _ => None
  end.

Fixpoint handle_run (s : handle_state) (t : list (@call K)) : option handle_state :=
  match t with
  | [] => Some s
  | c :: t' =>
      match handle_step s c with
      | Some s' => handle_run s' t'
      | None => None
      end
  end.

(** A computation that leaves no archive in use: from every state its
    calls run from [no_archive] to [no_archive] when it returns, and to
    [no_archive] or to a call of [tarfile.open] that raised when it
    raises. *)
Definition closes_its_archives {A} (m : M A) : Prop :=
  ∀ σ : @state K World, ∃ t s,
    trace (m σ).2 = trace σ ++ t
    ∧ handle_run no_archive t = Some s
    ∧ match (m σ).1 with
      | Ok _ => s = no_archive
      | Raise _ => ∀ p, s ≠ in_use p
      end.

End Handles.

(** ** An in-memory file system

    Files, archives and directories, keyed by their path from the root
    as a list of components.  There are no links, owners or modes: a
    call fails only for what the tree holds (a missing file, a file
    where a directory is needed and the like).  An archive is the list
    of its members; it is extracted member by member, and the first
    member that cannot be written raises. *)

Module MemFS.

(** A member of an archive: a regular file with its data, or a
    directory when [member_body] is [None]. *)
Record member := {
  member_name : string;
  member_body : option string;
}.

Inductive node :=
  | Regular (data : string)
  | Tarball (members : list member)
  | Directory.

Abbreviation tree := (gmap (list string) node).

(** The components a path string leads to, from the root: the kernel's
    walk meets no link, so it is the lexical one. *)
Definition resolve (path : string) : list string := Py.normpath_comps 1 path.

Definition is_directory (o : option node) : bool :=
  match o with Some Directory => true | _ => false end.

Definition enoent (path : string) : exn :=
  EnvironmentError ("[Errno 2] No such file or directory: '" +:+ path +:+ "'").
Definition enotdir (path : string) : exn :=
  EnvironmentError ("[Errno 20] Not a directory: '" +:+ path +:+ "'").
Definition eisdir (path : string) : exn :=
  EnvironmentError ("[Errno 21] Is a directory: '" +:+ path +:+ "'").
Definition eexist (path : string) : exn :=
  EnvironmentError ("[Errno 17] File exists: '" +:+ path +:+ "'").
Definition read_error : exn :=
  OtherException "ReadError: file could not be opened successfully".

(** [tarfile.open(path)] *)
Definition open_archive (path : string) (t : tree) : result (list member) :=
  match t !! resolve path with
  | Some (Tarball members) => Ok members
  | Some (Regular _) => Raise read_error
  | Some Directory => Raise (eisdir path)
  | None => Raise (enoent path)
  end.

(** [archive.getnames()] *)
Definition archive_names (members : list member) (t : tree) : result (list string) :=
  Ok (member_name <$> members).

(** The directories above a path, the root first. *)
Fixpoint ancestors (p : list string) : list (list string) :=
  match p with
  | [] => []
  | c :: p' => [] :: (cons c <$> ancestors p')
  end.

(** [os.makedirs], one directory after the other. *)
Fixpoint makedirs (dirs : list (list string)) (t : tree) : result unit * tree :=
  match dirs with
  | [] => (Ok (), t)
  | q :: dirs' =>
      match t !! q with
      | None => makedirs dirs' (<[q := Directory]> t)
      | Some Directory => makedirs dirs' t
      | Some _ => (Raise (enotdir (Py.str_join "/" q)), t)
      end
  end.

(** The extraction of one member below [destination]. *)
Definition extract_member (destination : string) (m : member) (t : tree)
    : result unit * tree :=
  let target := resolve (Py.join destination (member_name m)) in
  match makedirs (ancestors target) t with
  | (Raise e, t') => (Raise e, t')
  | (Ok _, t') =>
      match member_body m with
      | Some data =>
          if is_directory (t' !! target)
          then (Raise (eisdir (member_name m)), t')
          else (Ok (), <[target := Regular data]> t')
      | None =>
          match t' !! target with
          | None => (Ok (), <[target := Directory]> t')
          | Some Directory => (Ok (), t')
          | Some _ => (Raise (eexist (member_name m)), t')
          end
      end
  end.

(** [archive.extractall(destination)] *)
Fixpoint extract_members (members : list member) (destination : string) (t : tree)
    : result unit * tree :=
  match members with
  | [] => (Ok (), t)
  | m :: members' =>
      match extract_member destination m t with
      | (Ok _, t') => extract_members members' destination t'
      | (Raise e, t') => (Raise e, t')
      end
  end.

(** What is left of [k] below [d], when [k] is below [d]. *)
Fixpoint strip_prefix (d k : list string) : option (list string) :=
  match d, k with
  | [], _ => Some k
  | x :: d', y :: k' => if decide (x = y) then strip_prefix d' k' else None
  | _ :: _, [] => None
  end.

Definition child_name (d k : list string) : option string :=
  match strip_prefix d k with
  | Some [c] => Some c
  | _ => None
  end.

Definition children (d : list string) (t : tree) : list string :=
  omap (λ kv, child_name d kv.1) (map_to_list t).

(** [os.listdir(path)] *)
Definition list_directory (path : string) (t : tree) : result (list string) :=
  match t !! resolve path with
  | Some Directory => Ok (children (resolve path) t)
  | Some _ => Raise (enotdir path)
  | None => Raise (enoent path)
  end.

(** [os.path.isdir(path)] *)
Definition is_dir (path : string) (t : tree) : bool :=
  is_directory (t !! resolve path).

(** The tree without [q] and all that is below it. *)
Definition remove_tree (q : list string) (t : tree) : tree :=
  filter (λ kv, ¬ q `prefix_of` kv.1) t.

(** [shutil.rmtree(path)] *)
Definition rmtree (path : string) (t : tree) : result unit * tree :=
  match t !! resolve path with
  | Some Directory => (Ok (), remove_tree (resolve path) t)
  | Some _ => (Raise (enotdir path), t)
  | None => (Raise (enoent path), t)
  end.

#[export] Instance memfs_OS : OS tree := {|
  handle := list member;
  sys_open := open_archive;
  sys_getnames := archive_names;
  sys_extractall := extract_members;
  sys_listdir := list_directory;
  sys_isdir := is_dir;
  sys_rmtree := rmtree;
|}.

(** [os.access(path, mode)]: there are no owners or modes, what exists
    can be read, written and searched. *)
#[export] Instance memfs_Access : Access tree := {|
  sys_access path mode t := bool_decide (is_Some (t !! resolve path));
|}.

(** A name a directory entry can have. *)
Definition valid_name (c : string) : bool :=
  negb (String.eqb c "") && negb (String.eqb c ".") && negb (String.eqb c "..")
  && bool_decide (Py.split "/" c = [c]).

(** A well-formed tree: the root is a directory, every entry has a name
    and sits in a directory. *)
Definition well_formed (t : tree) : Prop :=
  t !! [] = Some Directory ∧
  ∀ p c, is_Some (t !! (p ++ [c])) →
    valid_name c = true ∧ t !! p = Some Directory.

(** The tree after clearing the directory [d]: every entry at or below a
    child of [d] that is a directory is gone, the rest is as it was. *)
Definition below_subdirectory (d : list string) (t : tree) (p : list string) : Prop :=
  ∃ c, (d ++ [c]) `prefix_of` p ∧ t !! (d ++ [c]) = Some Directory.

(** What the extraction of a member writes when it goes through: the
    directories above the target, then the target. *)
Definition member_node (m : member) : node :=
  match member_body m with
  | Some data => Regular data
  | None => Directory
  end.

Definition writes (destination : string) (m : member) : list (list string * node) :=
  let target := resolve (Py.join destination (member_name m)) in
  ((λ q, (q, Directory)) <$> ancestors target) ++ [(target, member_node m)].

Definition apply_writes (ws : list (list string * node)) (t : tree) : tree :=
  fold_left (λ t kv, <[kv.1 := kv.2]> t) ws t.

(** The members of the archive of a unit, as the tree [t] stores it. *)
Definition archive_of {K : Type} (t : tree) (u : AssociatedUnit K) : list member :=
  match t !! resolve (storage_path u) with
  | Some (Tarball members) => members
  | _ => []
  end.

Definition units_writes {K : Type} (t : tree) (destination : string)
    (units : list (AssociatedUnit K)) : list (list string * node) :=
  u ← units; m ← archive_of t u; writes destination m.

(** Every archive of [t] is an archive of [t0]: the calls of the module
    write files and directories, never an archive. *)
Definition archives_from (t0 t : tree) : Prop :=
  ∀ p members, t !! p = Some (Tarball members) → t0 !! p = Some (Tarball members).

Definition names_valid (t : tree) : Prop :=
  ∀ p, is_Some (t !! p) → Forall (λ c, valid_name c = true) p.

(** The directory [d] among [names] that holds [p], if any. *)
Definition struck (d : list string) (names : list string) (t : tree)
    (p : list string) : Prop :=
  ∃ c, c ∈ names ∧ (d ++ [c]) `prefix_of` p ∧ t !! (d ++ [c]) = Some Directory.

Definition is_tarball (v : node) : bool :=
  match v with Tarball _ => true | _ => false end.

(** [well_formed], computed. *)
Definition well_formed_b (t : tree) : bool :=
  is_directory (t !! []) &&
  forallb (λ kv,
    match last kv.1 with
    | None => true
    | Some c => valid_name c && is_directory (t !! removelast kv.1)
    end) (map_to_list t).

End MemFS.

(** ** Inside and outside of a directory of the tree *)

Module Inside.

Import MemFS.

(** The tree [t] is the tree [t0] at every path that is not [d] and not
    below [d]. *)
Definition same_outside (d : list string) (t0 t : tree) : Prop :=
  ∀ p : list string, ¬ d `prefix_of` p → t !! p = t0 !! p.

(** The members of an archive all have their target at or below the
    destination. *)
Definition members_inside (destination : string) (members : list member) : Prop :=
  Forall (λ m, resolve destination
                 `prefix_of` resolve (Py.join destination (member_name m))) members.

(** What [t0] stores for the unit, if it is an archive, unpacks inside
    the destination. *)
Definition unit_inside {K : Type} (destination : string) (t0 : tree)
    (u : AssociatedUnit K) : Prop :=
  ∀ members : list member,
    t0 !! resolve (storage_path u) = Some (Tarball members) →
    members_inside destination members.

End Inside.

(** ** A disk, some archives and a distributor to run the code on *)

Module Example.

Import MemFS.

Definition file (name data : string) : member :=
  {| member_name := name; member_body := Some data |}.
Definition dir (name : string) : member :=
  {| member_name := name; member_body := None |}.

(** A module as it should be, one that reaches outside the destination,
    and one that wants a directory where the disk has a file. *)
Definition mymodule : list member :=
  [dir "mymodule"; dir "mymodule/manifests";
   file "mymodule/manifests/init.pp" "class mymodule {}"].
Definition evil : list member :=
  [file "evil/metadata.json" "{}"; file "../outside.txt" "gotcha"].
Definition clash : list member :=
  [file "README/init.pp" "class readme {}"].

Definition disk : tree :=
  list_to_map
    [([], Directory);
     (["srv"], Directory);
     (["srv"; "puppet"], Directory);
     (["srv"; "puppet"; "README"], Regular "installed by pulp");
     (["srv"; "puppet"; "old"], Directory);
     (["srv"; "puppet"; "old"; "init.pp"], Regular "class old {}");
     (["var"], Directory);
     (["var"; "mymodule.tar"], Tarball mymodule);
     (["var"; "evil.tar"], Tarball evil);
     (["var"; "clash.tar"], Tarball clash);
     (["var"; "notes.txt"], Regular "not an archive")].

Definition unit_mymodule : AssociatedUnit string :=
  {| unit_key := "mymodule"; storage_path := "/var/mymodule.tar" |}.
Definition unit_evil : AssociatedUnit string :=
  {| unit_key := "evil"; storage_path := "/var/evil.tar" |}.
Definition unit_clash : AssociatedUnit string :=
  {| unit_key := "clash"; storage_path := "/var/clash.tar" |}.
Definition unit_missing : AssociatedUnit string :=
  {| unit_key := "missing"; storage_path := "/var/missing.tar" |}.

Definition CONFIG_INSTALL_PATH : string := "install_path".
Definition TYPE_PUPPET_MODULE : string := "puppet_module".

Definition repo : Repository := {| repo_id := "forge" |}.

Definition conduit (units : list (AssociatedUnit string)) : RepoPublishConduit string :=
  {| get_units := λ _, units |}.

Definition config (destination : string) : gmap string string :=
  {[ CONFIG_INSTALL_PATH := destination ]}.

(** The state in which nothing has happened yet, and the distributor and
    the state that [__init__] makes of it. *)
Definition blank (w : tree) : @state string tree :=
  {| heap := ∅; world := w; trace := [] |}.

Definition installer : PuppetModuleInstallDistributor := {| detail_report := 1%positive |}.

Definition boot (w : tree) : @state string tree :=
  {| heap := {[ 1%positive := empty_report ]}; world := w; trace := [] |}.

Definition publish (units : list (AssociatedUnit string)) (destination : string)
    : M PublishReport :=
  publish_repo CONFIG_INSTALL_PATH TYPE_PUPPET_MODULE installer repo
    (conduit units) (config destination).

(** The states a run goes through. *)
Definition checked (units : list (AssociatedUnit string)) (destination : string)
    : @state string tree :=
  (_check_for_unsafe_archive_paths installer units destination (boot disk)).2.

Definition cleared (units : list (AssociatedUnit string)) (destination : string)
    : @state string tree :=
  (_clear_destination_directory destination (checked units destination)).2.

Definition published (units : list (AssociatedUnit string)) (destination : string)
    : @state string tree :=
  (publish units destination (boot disk)).2.

Definition published_again (units : list (AssociatedUnit string)) (destination : string)
    : @state string tree :=
  (publish units destination (published units destination)).2.

Definition evil_archive : TarFile :=
  {| name := "/var/evil.tar"; fileobj := evil |}.

End Example.
(** ** Facts about strings *)

Lemma append_cons c s t : String c s +:+ t = String c (s +:+ t).
Proof. reflexivity. Qed.

Lemma append_assoc s t u : (s +:+ t) +:+ u = s +:+ (t +:+ u).
Proof.
  induction s as [|c s IH]; [reflexivity|].
  rewrite !append_cons. by rewrite IH.
Qed.

Lemma append_nil_r s : s +:+ "" = s.
Proof. induction s as [|c s IH]; [reflexivity|]. by rewrite append_cons, IH. Qed.

Lemma append_eq_nil s t : s +:+ t = "" → s = "".
Proof. by destruct s. Qed.

Lemma endswith_cons c s t :
  Py.endswith (String c s) t = String.eqb (String c s) t || Py.endswith s t.
Proof. reflexivity. Qed.

Lemma endswith_refl s : Py.endswith s s = true.
Proof. destruct s; [reflexivity|]. by rewrite endswith_cons, String.eqb_refl. Qed.

Lemma endswith_append s t : Py.endswith (s +:+ t) t = true.
Proof.
  induction s as [|c s IH]; [apply endswith_refl|].
  rewrite append_cons, endswith_cons, IH. apply orb_true_r.
Qed.

(** Joining onto a non-empty path gives the same whether or not the path
    already ends with the separator. *)
Lemma join_with_trailing_separator d n :
  d ≠ "" → Py.join (with_trailing_separator d) n = Py.join d n.
Proof.
  intros Hd. unfold with_trailing_separator.
  destruct (Py.endswith d "/") eqn:He; [reflexivity|].
  unfold Py.join. destruct (Py.startswith n "/"); [reflexivity|].
  rewrite He, endswith_append, orb_true_r.
  apply String.eqb_neq in Hd. rewrite Hd. simpl.
  apply append_assoc.
Qed.

Lemma with_trailing_separator_idem d :
  with_trailing_separator (with_trailing_separator d) = with_trailing_separator d.
Proof.
  unfold with_trailing_separator at 2 3.
  destruct (Py.endswith d "/") eqn:He.
  - unfold with_trailing_separator. by rewrite He.
  - unfold with_trailing_separator. by rewrite endswith_append.
Qed.

Lemma with_trailing_separator_nonempty d : with_trailing_separator d ≠ "".
Proof.
  unfold with_trailing_separator. destruct (Py.endswith d "/") eqn:He.
  - intros ->. vm_compute in He. discriminate.
  - intros H. destruct d; vm_compute in H; discriminate.
Qed.

Lemma forallb_pointwise {A} (f g : A → bool) (l : list A) :
  (∀ x, f x = g x) → forallb f l = forallb g l.
Proof. intros Hfg. induction l as [|x l IH]; simpl; [done|]. by rewrite Hfg, IH. Qed.

Section SafetyCheck.

Context {K : Type} {World : Type} `{!OS World}.

(** The loop of the code and the definition of the specification agree
    on every destination but the empty string. *)
Lemma paths_are_safe_IsSafe (destination : string) (names : list string) :
  destination ≠ "" → paths_are_safe destination names = IsSafe destination names.
Proof.
  revert destination. induction names as [|n names IH]; intros d Hd; [reflexivity|].
  simpl. unfold escapes at 1.
  replace (if negb (Py.endswith d "/") then d +:+ "/" else d)
    with (with_trailing_separator d)
    by (unfold with_trailing_separator; by destruct (Py.endswith d "/")).
  destruct (Py.startswith _ _); simpl; [|reflexivity].
  rewrite IH by apply with_trailing_separator_nonempty.
  unfold IsSafe. apply forallb_pointwise. intros x. unfold escapes.
  by rewrite with_trailing_separator_idem, join_with_trailing_separator.
Qed.

End SafetyCheck.

(** ** Runs of the monad and their logs *)

Section Runs.

Context {K : Type} {World : Type} `{!OS World}.
Implicit Types (σ : @state K World) (t : list (@call K)) (w : World) (l : loc).
Implicit Types (r : DetailReport K).

Lemma replay_nil r : replay [] r = r.
Proof. destruct r. unfold replay. simpl. by rewrite !app_nil_r. Qed.

Lemma successes_in_app t1 t2 : successes_in (t1 ++ t2) = successes_in t1 ++ successes_in t2.
Proof. apply omap_app. Qed.

Lemma errors_in_app t1 t2 : errors_in (t1 ++ t2) = errors_in t1 ++ errors_in t2.
Proof. apply omap_app. Qed.

Lemma opened_app t1 t2 : opened (t1 ++ t2) = opened t1 ++ opened t2.
Proof. apply omap_app. Qed.

Lemma replay_app t1 t2 r : replay (t1 ++ t2) r = replay t2 (replay t1 r).
Proof.
  unfold replay. simpl. by rewrite successes_in_app, errors_in_app, !app_assoc.
Qed.

Lemma after_nil l σ : after l σ [] (world σ) = σ.
Proof.
  destruct σ as [h w t]. unfold after. simpl. rewrite app_nil_r. f_equal.
  apply alter_id. intros r _. apply replay_nil.
Qed.

Lemma after_after l σ t1 w1 t2 w2 :
  after l (after l σ t1 w1) t2 w2 = after l σ (t1 ++ t2) w2.
Proof.
  unfold after. simpl. rewrite app_assoc. f_equal.
  rewrite alter_alter_eq. apply alter_ext. intros r _. simpl.
  symmetry. apply replay_app.
Qed.

Lemma heap_after l σ t w : heap (after l σ t w) !! l = replay t <$> heap σ !! l.
Proof. unfold after. simpl. apply lookup_alter_eq. Qed.

Lemma heap_after_ne l l' σ t w : l ≠ l' → heap (after l σ t w) !! l' = heap σ !! l'.
Proof. intros. unfold after. simpl. by apply lookup_alter_ne. Qed.

Lemma runs_ret l {A} (a : A) σ : runs l (mret a) σ (Ok a) [] (world σ).
Proof. unfold runs. by rewrite after_nil. Qed.

Lemma runs_bind l {A B} (m : M A) (f : A → M B) σ a t1 w1 res t2 w2 :
  runs l m σ (Ok a) t1 w1 →
  runs l (f a) (after l σ t1 w1) res t2 w2 →
  runs l (m ≫= f) σ res (t1 ++ t2) w2.
Proof.
  unfold runs. intros Hm Hf. unfold mbind, M_bind. rewrite Hm, Hf.
  by rewrite after_after.
Qed.

Lemma runs_bind_raise l {A B} (m : M A) (f : A → M B) σ e t w :
  runs l m σ (Raise e) t w → runs l (m ≫= f) σ (Raise e) t w.
Proof. unfold runs. intros Hm. unfold mbind, M_bind. by rewrite Hm. Qed.

(** A run ends in its own final state. *)
Lemma run_to_its_state {A} (m : M A) σ (res : result A) :
  (m σ).1 = res → m σ = (res, (m σ).2).
Proof. destruct (m σ). simpl. congruence. Qed.

Lemma after_intro l σ h w tr t :
  h = alter (replay t) l (heap σ) → tr = trace σ ++ t →
  {| heap := h; world := w; trace := tr |} = after l σ t w.
Proof. by intros -> ->. Qed.

Lemma alter_replay_none l t (h : gmap loc (DetailReport K)) :
  successes_in t = [] → errors_in t = [] → h = alter (replay t) l h.
Proof.
  intros Hs He. symmetry. apply alter_id. intros [ss es] _.
  unfold replay. simpl. by rewrite Hs, He, !app_nil_r.
Qed.

Lemma alter_replay_error l t k msg (h : gmap loc (DetailReport K)) :
  successes_in t = [] → errors_in t = [(k, msg)] →
  alter (append_error k msg) l h = alter (replay t) l h.
Proof.
  intros Hs He. apply alter_ext. intros [ss es] _.
  unfold replay, append_error. simpl. by rewrite Hs, He, !app_nil_r.
Qed.

Lemma alter_replay_success l t k (h : gmap loc (DetailReport K)) :
  successes_in t = [k] → errors_in t = [] →
  alter (append_success k) l h = alter (replay t) l h.
Proof.
  intros Hs He. apply alter_ext. intros [ss es] _.
  unfold replay, append_success. simpl. by rewrite Hs, He, !app_nil_r.
Qed.

End Runs.

(** The monad and the library calls, unfolded down to the calls of [OS]. *)
Ltac unfold_run :=
  unfold runs, try_except, try_finally, _archive_paths_are_safe,
    tarfile_open, getnames, extractall, close, os_listdir, os_path_isdir,
    shutil_rmtree, success, error, has_errors, update_report, log, query,
    command, mbind, M_bind, mret, M_ret; simpl.

(** A state that is [after] the calls [t]. *)
Tactic Notation "is_after" uconstr(t) :=
  exists t; split_and?; try done;
  try (f_equal; apply after_intro;
       [ first [ by apply alter_replay_none
               | by apply alter_replay_error
               | by apply alter_replay_success ]
       | by rewrite <- ?app_assoc ]).

(** ** The check phase *)

Section CheckPhase.

Context {K : Type} {World : Type} `{!OS World}.
Implicit Types (σ : @state K World) (t : list (@call K)) (w : World) (l : loc).
Implicit Types (u : AssociatedUnit K) (units : list (AssociatedUnit K)).

Lemma check_archive_runs self destination u σ :
  ∃ t,
    runs (detail_report self) (check_archive self destination u) σ
      (check_unit_result (check_unit destination (world σ) u)) t (world σ)
    ∧ errors_in t = check_unit_errors (unit_key u) (check_unit destination (world σ) u)
    ∧ successes_in t = []
    ∧ forallb is_inspection t = true
    ∧ opened t = [storage_path u].
Proof.
  unfold check_archive, check_unit. unfold_run.
  set (p := storage_path u). set (k := unit_key u).
  destruct (sys_open p (world σ)) as [h|[msg|msg]]; simpl.
  - destruct (sys_getnames h (world σ)) as [names|[msg|msg]]; simpl.
    + destruct (paths_are_safe destination names); simpl.
      * is_after [call_open p; call_getnames p; call_close p].
      * is_after [call_open p; call_getnames p; call_error k ERROR_MESSAGE_PATH;
                  call_close p].
    + is_after [call_open p; call_getnames p; call_close p; call_error k msg].
    + is_after [call_open p; call_getnames p; call_close p].
  - is_after [call_open p; call_error k msg].
  - is_after [call_open p].
Qed.

(** Whatever the archives are, the check phase leaves the world alone,
    records no success and at most one error per unit. *)
Lemma check_runs_any self destination units σ :
  ∃ res t,
    runs (detail_report self)
      (_check_for_unsafe_archive_paths self units destination) σ res t (world σ)
    ∧ successes_in t = []
    ∧ forallb is_inspection t = true
    ∧ (errors_in t).*1 `sublist_of` (unit_key <$> units).
Proof.
  unfold _check_for_unsafe_archive_paths.
  revert σ. induction units as [|u units IH]; intros σ; simpl.
  - exists (Ok ()), []. split_and!; try done. apply runs_ret.
  - destruct (check_archive_runs self destination u σ)
      as (t1 & Hrun & Herr & Hsucc & Hinsp & _).
    assert (Hsub : (errors_in t1).*1 `sublist_of` [unit_key u]).
    { rewrite Herr. destruct (check_unit _ _ _) as [[msg|]|e]; simpl.
      - done.
      - apply sublist_nil_l.
      - apply sublist_nil_l. }
    destruct (check_unit destination (world σ) u) as [v|e]; simpl in Hrun.
    + destruct (IH (after (detail_report self) σ t1 (world σ)))
        as (res & t2 & Hrun2 & Hsucc2 & Hinsp2 & Hsub2).
      exists res, (t1 ++ t2). split_and!.
      * eapply runs_bind; eauto.
      * by rewrite successes_in_app, Hsucc, Hsucc2.
      * by rewrite forallb_app, Hinsp, Hinsp2.
      * rewrite errors_in_app, fmap_app.
        by apply (sublist_app _ [unit_key u]).
    + exists (Raise e), t1. split_and!; try done.
      * by apply runs_bind_raise.
      * etrans; [apply Hsub|]. apply sublist_skip, sublist_nil_l.
Qed.

(** When no exception other than an I/O error occurs, every unit is
    checked and the errors are those of [check_errors], in order. *)
Lemma check_runs_ok self destination units σ :
  Forall (λ u, is_ok (check_unit destination (world σ) u) = true) units →
  ∃ t,
    runs (detail_report self)
      (_check_for_unsafe_archive_paths self units destination) σ (Ok ()) t (world σ)
    ∧ errors_in t = check_errors destination (world σ) units
    ∧ successes_in t = []
    ∧ forallb is_inspection t = true
    ∧ opened t = storage_path <$> units.
Proof.
  unfold _check_for_unsafe_archive_paths.
  revert σ. induction units as [|u units IH]; intros σ Hok; simpl.
  - exists []. split_and!; try done. apply runs_ret.
  - apply Forall_cons in Hok as [Hu Hok].
    destruct (check_archive_runs self destination u σ)
      as (t1 & Hrun & Herr & Hsucc & Hinsp & Hopen).
    destruct (IH (after (detail_report self) σ t1 (world σ)) Hok)
      as (t2 & Hrun2 & Herr2 & Hsucc2 & Hinsp2 & Hopen2).
    simpl in Herr2.
    exists (t1 ++ t2). split_and!.
    + eapply runs_bind; [|exact Hrun2].
      by destruct (check_unit destination (world σ) u).
    + rewrite errors_in_app, Herr, Herr2. unfold check_errors. simpl.
      by destruct (check_unit destination (world σ) u) as [[msg|]|e].
    + by rewrite successes_in_app, Hsucc, Hsucc2.
    + by rewrite forallb_app, Hinsp, Hinsp2.
    + by rewrite opened_app, Hopen, Hopen2.
Qed.

End CheckPhase.

(** ** The clearing phase *)

Section ClearingPhase.

Context {K : Type} {World : Type} `{!OS World}.
Implicit Types (σ : @state K World) (t : list (@call K)) (w : World) (l : loc).

Lemma removed_app t1 t2 : removed (t1 ++ t2) = removed t1 ++ removed t2.
Proof. apply omap_app. Qed.

Lemma clear_children_runs l destination names σ :
  ∃ t,
    runs l
      (for_each names (λ directory,
         let path := Py.join destination directory in
         isdir ← os_path_isdir path;
         if (isdir : bool) then shutil_rmtree path else mret ())) σ
      (clear_children destination names (world σ)).1 t
      (clear_children destination names (world σ)).2
    ∧ successes_in t = [] ∧ errors_in t = []
    ∧ forallb is_clearing t = true
    ∧ opened t = [].
Proof.
  revert σ. induction names as [|d names IH]; intros σ.
  - exists []. split_and!; try done. apply runs_ret.
  - set (p := Py.join destination d).
    assert (Hstep : ∃ t1,
      runs l (isdir ← os_path_isdir p;
              if (isdir : bool) then shutil_rmtree p else mret ()) σ
        (if sys_isdir p (world σ) then (sys_rmtree p (world σ)).1 else Ok ()) t1
        (if sys_isdir p (world σ) then (sys_rmtree p (world σ)).2 else world σ)
      ∧ successes_in t1 = [] ∧ errors_in t1 = []
      ∧ forallb is_clearing t1 = true ∧ opened t1 = []).
    { unfold_run. destruct (sys_isdir p (world σ)); simpl.
      - destruct (sys_rmtree p (world σ)) as [res w']; simpl.
        is_after [call_isdir p; call_rmtree p].
      - is_after [call_isdir p]. }
    destruct Hstep as (t1 & Hrun & Hs & He & Hc & Ho).
    simpl. fold p.
    destruct (sys_isdir p (world σ)).
    + destruct (sys_rmtree p (world σ)) as [[[]|e] w']; simpl in *.
      * destruct (IH (after l σ t1 w')) as (t2 & Hrun2 & Hs2 & He2 & Hc2 & Ho2).
        exists (t1 ++ t2). split_and!.
        -- eapply runs_bind; eauto.
        -- by rewrite successes_in_app, Hs, Hs2.
        -- by rewrite errors_in_app, He, He2.
        -- by rewrite forallb_app, Hc, Hc2.
        -- by rewrite opened_app, Ho, Ho2.
      * exists t1. split_and!; try done. by apply runs_bind_raise.
    + destruct (IH (after l σ t1 (world σ))) as (t2 & Hrun2 & Hs2 & He2 & Hc2 & Ho2).
      exists (t1 ++ t2). split_and!.
      * eapply runs_bind; eauto.
      * by rewrite successes_in_app, Hs, Hs2.
      * by rewrite errors_in_app, He, He2.
      * by rewrite forallb_app, Hc, Hc2.
      * by rewrite opened_app, Ho, Ho2.
Qed.

(** Clearing does to the world what [clear_world] says, touches no
    report and opens no archive. *)
Lemma clear_runs l destination σ :
  ∃ t,
    runs l (_clear_destination_directory destination) σ
      (clear_world destination (world σ)).1 t
      (clear_world destination (world σ)).2
    ∧ successes_in t = [] ∧ errors_in t = []
    ∧ forallb is_clearing t = true
    ∧ opened t = [].
Proof.
  unfold _clear_destination_directory, clear_world.
  assert (Hlist : runs l (os_listdir destination) σ
            (sys_listdir destination (world σ)) [call_listdir destination] (world σ)).
  { unfold_run. f_equal. apply after_intro; [by apply alter_replay_none|done]. }
  destruct (sys_listdir destination (world σ)) as [names|e].
  - destruct (clear_children_runs l destination names
                (after l σ [call_listdir destination] (world σ)))
      as (t2 & Hrun2 & Hs2 & He2 & Hc2 & Ho2).
    exists ([call_listdir destination] ++ t2). split_and!.
    + eapply runs_bind; eauto.
    + by rewrite successes_in_app, Hs2.
    + by rewrite errors_in_app, He2.
    + by rewrite forallb_app, Hc2.
    + by rewrite opened_app, Ho2.
  - exists [call_listdir destination]. split_and!; try done.
    by apply runs_bind_raise.
Qed.

End ClearingPhase.

(** ** The publishing phase *)

Section PublishingPhase.

Context {K : Type} {World : Type} `{!OS World}.
Implicit Types (σ : @state K World) (t : list (@call K)) (w : World) (l : loc).
Implicit Types (u : AssociatedUnit K) (units : list (AssociatedUnit K)).

Lemma publish_unit_runs self destination u σ :
  ∃ t,
    runs (detail_report self) (publish_unit self destination u) σ
      (publish_unit_result (extract_unit destination u (world σ)).1) t
      (extract_unit destination u (world σ)).2
    ∧ successes_in t = succeeded [u] [(extract_unit destination u (world σ)).1]
    ∧ errors_in t = failed [u] [(extract_unit destination u (world σ)).1]
    ∧ forallb no_clearing t = true
    ∧ opened t = [storage_path u].
Proof.
  unfold publish_unit, extract_unit. unfold_run.
  set (p := storage_path u). set (k := unit_key u).
  destruct (sys_open p (world σ)) as [h|[msg|msg]]; simpl.
  - destruct (sys_extractall h destination (world σ)) as [[[]|[msg|msg]] w']; simpl.
    + is_after [call_open p; call_extractall p destination; call_close p;
                call_success k].
    + is_after [call_open p; call_extractall p destination; call_close p;
                call_error k msg].
    + is_after [call_open p; call_extractall p destination; call_close p].
  - is_after [call_open p; call_error k msg].
  - is_after [call_open p].
Qed.

Lemma succeeded_cons u units r rs :
  succeeded (u :: units) (r :: rs) = succeeded [u] [r] ++ succeeded units rs.
Proof. unfold succeeded. simpl. by destruct (is_ok r). Qed.

Lemma failed_cons u units r rs :
  failed (u :: units) (r :: rs) = failed [u] [r] ++ failed units rs.
Proof. unfold failed. simpl. by destruct r as [|[|]]. Qed.

Lemma extraction_cons destination u units w :
  extraction destination (u :: units) w =
  ((extract_unit destination u w).1
     :: (extraction destination units (extract_unit destination u w).2).1,
   (extraction destination units (extract_unit destination u w).2).2).
Proof.
  simpl. destruct (extract_unit destination u w) as [r w']. simpl.
  by destruct (extraction destination units w').
Qed.

Lemma extraction_length destination units w :
  length (extraction destination units w).1 = length units.
Proof.
  revert w. induction units as [|u units IH]; intros w; [done|].
  rewrite extraction_cons. simpl. by rewrite IH.
Qed.

(** Every unit gets one entry, a success or an error, as long as the
    loop runs; the entries of a run are those of distinct units. *)
Lemma publish_runs_any self destination units σ :
  ∃ res t w',
    runs (detail_report self) (for_each units (publish_unit self destination)) σ
      res t w'
    ∧ successes_in t ++ (errors_in t).*1 ⊆+ unit_key <$> units.
Proof.
  revert σ. induction units as [|u units IH]; intros σ.
  - exists (Ok ()), [], (world σ). split; [apply runs_ret|done].
  - destruct (publish_unit_runs self destination u σ)
      as (t1 & Hrun & Hs & He & _).
    set (r := (extract_unit destination u (world σ)).1) in *.
    set (w1 := (extract_unit destination u (world σ)).2) in *.
    assert (Hone : successes_in t1 ++ (errors_in t1).*1 ⊆+ [unit_key u]).
    { rewrite Hs, He. unfold succeeded, failed. simpl.
      destruct r as [[]|[msg|msg]]; simpl; try done. apply submseteq_nil_l. }
    destruct r as [[]|[msg|msg]]; simpl in Hrun.
    1,2: destruct (IH (after (detail_report self) σ t1 w1))
          as (res & t2 & w2 & Hrun2 & Hsub);
        exists res, (t1 ++ t2), w2; (split; [eapply runs_bind; eauto|]);
        rewrite successes_in_app, errors_in_app, fmap_app;
        replace ((successes_in t1 ++ successes_in t2)
                 ++ (errors_in t1).*1 ++ (errors_in t2).*1)
          with ((successes_in t1 ++ (successes_in t2 ++ (errors_in t1).*1))
                 ++ (errors_in t2).*1) by (by rewrite <- !app_assoc);
        rewrite (Permutation_app_comm (successes_in t2));
        rewrite <- !app_assoc, (app_assoc (successes_in t1));
        by apply (submseteq_app _ [unit_key u]).
    exists (Raise (OtherException msg)), t1, w1. split.
    + by apply runs_bind_raise.
    + etrans; [apply Hone|]. apply submseteq_skip, submseteq_nil_l.
Qed.

(** When every extraction succeeds or fails with an I/O error, the loop
    runs to its end and records exactly those outcomes. *)
Lemma publish_runs_ok self destination units σ :
  Forall (λ r, is_ok r || is_io_error r = true)
    (extraction destination units (world σ)).1 →
  ∃ t,
    runs (detail_report self) (for_each units (publish_unit self destination)) σ
      (Ok ()) t (extraction destination units (world σ)).2
    ∧ successes_in t = succeeded units (extraction destination units (world σ)).1
    ∧ errors_in t = failed units (extraction destination units (world σ)).1
    ∧ forallb no_clearing t = true
    ∧ opened t = storage_path <$> units.
Proof.
  revert σ. induction units as [|u units IH]; intros σ Hok.
  - exists []. split_and!; try done. apply runs_ret.
  - rewrite extraction_cons in *. cbn [fst snd] in *.
    apply Forall_cons in Hok as [Hu Hok].
    destruct (publish_unit_runs self destination u σ)
      as (t1 & Hrun & Hs & He & Hc & Ho).
    set (r := (extract_unit destination u (world σ)).1) in *.
    set (w1 := (extract_unit destination u (world σ)).2) in *.
    destruct (IH (after (detail_report self) σ t1 w1) Hok)
      as (t2 & Hrun2 & Hs2 & He2 & Hc2 & Ho2).
    exists (t1 ++ t2). split_and!.
    + eapply runs_bind; [|exact Hrun2].
      by destruct r as [[]|[msg|msg]].
    + rewrite successes_in_app, Hs, Hs2. symmetry. apply succeeded_cons.
    + rewrite errors_in_app, He, He2. symmetry. apply failed_cons.
    + by rewrite forallb_app, Hc, Hc2.
    + by rewrite opened_app, Ho, Ho2.
Qed.

End PublishingPhase.

(** ** The phases of [publish_repo] *)

Section Phases.

Context {K : Type} {World : Type} `{!OS World}.
Variables CONFIG_INSTALL_PATH TYPE_PUPPET_MODULE : string.
Implicit Types (σ : @state K World) (t : list (@call K)) (w : World) (l : loc).
Implicit Types (self : PuppetModuleInstallDistributor) (repo : Repository).
Implicit Types (publish_conduit : RepoPublishConduit K) (config : gmap string string).

Local Abbreviation publish := (publish_repo CONFIG_INSTALL_PATH TYPE_PUPPET_MODULE).
Local Abbreviation units_of publish_conduit := (get_units publish_conduit [TYPE_PUPPET_MODULE]).

Lemma has_errors_errs self σ : has_errors (detail_report self) σ = (Ok (errs self σ), σ).
Proof. reflexivity. Qed.

Lemma phase_not_provided self repo publish_conduit config σ :
  config !! CONFIG_INSTALL_PATH = None ∨ config !! CONFIG_INSTALL_PATH = Some "" →
  publish self repo publish_conduit config σ =
  (Ok (build_failure_report "install path not provided" (detail_report self)), σ).
Proof. unfold publish_repo. by intros [-> | ->]. Qed.

Lemma phase_check_raises self repo publish_conduit config destination σ e σ1 :
  config !! CONFIG_INSTALL_PATH = Some destination → destination ≠ "" →
  _check_for_unsafe_archive_paths self (units_of publish_conduit) destination σ
    = (Raise e, σ1) →
  publish self repo publish_conduit config σ = (Raise e, σ1).
Proof.
  intros Hcfg Hne Hcheck. unfold publish_repo. rewrite Hcfg.
  destruct destination as [|c d]; [done|].
  unfold mbind, M_bind. by rewrite Hcheck.
Qed.

Lemma phase_check_fails self repo publish_conduit config destination σ σ1 :
  config !! CONFIG_INSTALL_PATH = Some destination → destination ≠ "" →
  _check_for_unsafe_archive_paths self (units_of publish_conduit) destination σ
    = (Ok (), σ1) →
  errs self σ1 = true →
  publish self repo publish_conduit config σ =
  (Ok (build_failure_report "failed" (detail_report self)), σ1).
Proof.
  intros Hcfg Hne Hcheck Herrs. unfold publish_repo. rewrite Hcfg.
  destruct destination as [|c d]; [done|].
  unfold mbind, M_bind. rewrite Hcheck, has_errors_errs. by rewrite Herrs.
Qed.

Lemma phase_clear_raises self repo publish_conduit config destination σ σ1 e σ2 :
  config !! CONFIG_INSTALL_PATH = Some destination → destination ≠ "" →
  _check_for_unsafe_archive_paths self (units_of publish_conduit) destination σ
    = (Ok (), σ1) →
  errs self σ1 = false →
  _clear_destination_directory destination σ1 = (Raise e, σ2) →
  publish self repo publish_conduit config σ =
  (match e with
   | EnvironmentError msg =>
       Ok (build_failure_report ("failed to clear destination directory: " +:+ msg)
             (detail_report self))
   | OtherException msg => Raise e
   end, σ2).
Proof.
  intros Hcfg Hne Hcheck Herrs Hclear. unfold publish_repo. rewrite Hcfg.
  destruct destination as [|c d]; [done|].
  unfold try_except, mbind, M_bind.
  rewrite Hcheck, has_errors_errs, Herrs, Hclear. by destruct e.
Qed.

Lemma phase_publish self repo publish_conduit config destination σ σ1 σ2 res σ3 :
  config !! CONFIG_INSTALL_PATH = Some destination → destination ≠ "" →
  _check_for_unsafe_archive_paths self (units_of publish_conduit) destination σ
    = (Ok (), σ1) →
  errs self σ1 = false →
  _clear_destination_directory destination σ1 = (Ok (), σ2) →
  for_each (units_of publish_conduit) (publish_unit self destination) σ2 = (res, σ3) →
  publish self repo publish_conduit config σ =
  (match res with
   | Ok _ =>
       Ok (if errs self σ3
           then build_failure_report "failed" (detail_report self)
           else build_success_report "success" (detail_report self))
   | Raise e => Raise e
   end, σ3).
Proof.
  intros Hcfg Hne Hcheck Herrs Hclear Hpub. unfold publish_repo. rewrite Hcfg.
  destruct destination as [|c d]; [done|].
  unfold try_except, mbind, M_bind.
  rewrite Hcheck, has_errors_errs, Herrs, Hclear.
  unfold mret, M_ret. cbn beta iota zeta.
  rewrite Hpub. destruct res as [[]|e]; [|done].
  rewrite has_errors_errs. by destruct (errs self σ3).
Qed.

(** A check phase that returns has looked at every unit. *)
Lemma check_ok_verdicts self destination (units : list (AssociatedUnit K)) σ σ1 :
  _check_for_unsafe_archive_paths self units destination σ = (Ok (), σ1) →
  Forall (λ u, is_ok (check_unit destination (world σ) u) = true) units.
Proof.
  unfold _check_for_unsafe_archive_paths.
  revert σ. induction units as [|u units IH]; intros σ Hrun; [done|].
  destruct (check_archive_runs self destination u σ) as (t1 & Hu & _).
  unfold runs in Hu. simpl in Hrun. unfold mbind, M_bind in Hrun.
  rewrite Hu in Hrun.
  destruct (check_unit destination (world σ) u) as [v|e] eqn:Hv; simpl in Hrun; [|done].
  constructor; [by rewrite Hv|]. by apply (IH _ Hrun).
Qed.

Lemma check_inv self destination (units : list (AssociatedUnit K)) σ σ1 :
  _check_for_unsafe_archive_paths self units destination σ = (Ok (), σ1) →
  ∃ t,
    σ1 = after (detail_report self) σ t (world σ)
    ∧ errors_in t = check_errors destination (world σ) units
    ∧ successes_in t = []
    ∧ forallb is_inspection t = true
    ∧ opened t = storage_path <$> units.
Proof.
  intros Hrun.
  destruct (check_runs_ok self destination units σ) as (t & Hrun' & Ht).
  { by eapply check_ok_verdicts. }
  exists t. split; [|done]. unfold runs in Hrun'. congruence.
Qed.

Lemma errs_after self σ t w r0 :
  heap σ !! detail_report self = Some r0 →
  errs self (after (detail_report self) σ t w) = report_has_errors (replay t r0).
Proof. intros Hr0. unfold errs. by rewrite heap_after, Hr0. Qed.

Lemma report_has_errors_false (r : DetailReport K) :
  report_has_errors r = false ↔ errors r = [].
Proof. unfold report_has_errors. by destruct (errors r). Qed.

(** Every run of [publish_repo], whatever its outcome, records each
    unit at most once. *)
Lemma publish_repo_runs self repo publish_conduit config σ :
  is_Some (heap σ !! detail_report self) →
  ∃ res t w',
    runs (detail_report self) (publish self repo publish_conduit config) σ res t w'
    ∧ successes_in t ++ (errors_in t).*1 ⊆+ unit_key <$> units_of publish_conduit.
Proof.
  intros [r0 Hr0]. set (l := detail_report self). unfold runs.
  destruct (config !! CONFIG_INSTALL_PATH) as [destination|] eqn:Hcfg;
    [destruct (decide (destination = "")) as [->|Hne]|].
  2: {
    destruct (check_runs_any self destination (units_of publish_conduit) σ)
      as (res1 & t1 & Hcheck & Hs1 & _ & Hsub1).
    unfold runs in Hcheck. fold l in Hcheck.
    destruct res1 as [[]|e]; cycle 1.
    { exists (Raise e), t1, (world σ). split.
      - by eapply phase_check_raises.
      - rewrite Hs1. simpl. by apply sublist_submseteq. }
    destruct (errs self (after l σ t1 (world σ))) eqn:Herrs.
    { eexists _, t1, (world σ). split.
      - by eapply phase_check_fails.
      - rewrite Hs1. simpl. by apply sublist_submseteq. }
    assert (He1 : errors_in t1 = []).
    { unfold l in Herrs. rewrite (errs_after _ _ _ _ r0) in Herrs by done.
      apply report_has_errors_false in Herrs. simpl in Herrs.
      by apply app_eq_nil in Herrs as [_ ?]. }
    destruct (clear_runs l destination (after l σ t1 (world σ)))
      as (t2 & Hclear & Hs2 & He2 & _).
    unfold runs in Hclear. rewrite after_after in Hclear.
    change (world (after l σ t1 (world σ))) with (world σ) in Hclear.
    destruct (clear_world destination (world σ)) as [[[]|e] w2];
      cbn [fst snd] in Hclear; cycle 1.
    { eexists _, (t1 ++ t2), w2. split.
      - by eapply phase_clear_raises.
      - rewrite successes_in_app, errors_in_app, Hs1, Hs2, He1, He2. simpl.
        apply submseteq_nil_l. }
    destruct (publish_runs_any self destination (units_of publish_conduit)
                (after l σ (t1 ++ t2) w2)) as (res3 & t3 & w3 & Hpub & Hsub3).
    unfold runs in Hpub. fold l in Hpub. rewrite after_after in Hpub.
    eexists _, ((t1 ++ t2) ++ t3), w3. split.
    - eapply phase_publish; [exact Hcfg|exact Hne|exact Hcheck|exact Herrs|exact Hclear|exact Hpub].
    - rewrite !successes_in_app, !errors_in_app, Hs1, Hs2, He1, He2. by simpl. }
  all: exists (Ok (build_failure_report "install path not provided" l)), [], (world σ);
    (split; [|apply submseteq_nil_l]); rewrite after_nil;
    apply phase_not_provided; auto.
Qed.

End Phases.

(** ** The install operation *)

Section Install.

Context {K : Type} {World : Type} `{!OS World}.
Variables CONFIG_INSTALL_PATH TYPE_PUPPET_MODULE : string.
Implicit Types (σ : @state K World) (t : list (@call K)) (w : World) (l : loc).
Implicit Types (self : PuppetModuleInstallDistributor) (repo : Repository).
Implicit Types (publish_conduit : RepoPublishConduit K) (config : gmap string string).
Implicit Types (u : AssociatedUnit K) (units : list (AssociatedUnit K)).

Local Abbreviation publish := (publish_repo CONFIG_INSTALL_PATH TYPE_PUPPET_MODULE).
Local Abbreviation units_of publish_conduit := (get_units publish_conduit [TYPE_PUPPET_MODULE]).

Lemma has_errors_inv self σ b σ' :
  has_errors (detail_report self) σ = (Ok b, σ') → errs self σ = b.
Proof. rewrite has_errors_errs. congruence. Qed.

Lemma forallb_impl {A} (f g : A → bool) (xs : list A) :
  (∀ x, f x = true → g x = true) → forallb f xs = true → forallb g xs = true.
Proof.
  intros Hfg. induction xs as [|x xs IH]; simpl; [done|].
  intros [Hx Hxs]%andb_true_iff. by rewrite (Hfg x Hx), IH.
Qed.

(** C1.  When the destination is provided and the detail report holds
    an error once the check phase is over, [publish_repo] returns the
    failure report ['failed'] at that point: the world is the one it
    started in, and all it has called is [open], [getnames] and
    [close] on archives and [error] on the report, so nothing was
    listed, removed or extracted. *)
Theorem unsafe_unit_aborts_before_any_mutation
    self repo publish_conduit config destination σ σ1 :
  config !! CONFIG_INSTALL_PATH = Some destination → destination ≠ "" →
  _check_for_unsafe_archive_paths self (units_of publish_conduit) destination σ
    = (Ok (), σ1) →
  has_errors (detail_report self) σ1 = (Ok true, σ1) →
  publish self repo publish_conduit config σ
    = (Ok (build_failure_report "failed" (detail_report self)), σ1)
  ∧ world σ1 = world σ
  ∧ ∃ t, trace σ1 = trace σ ++ t ∧ forallb is_inspection t = true.
Proof.
  intros Hcfg Hne Hcheck Herrs%has_errors_inv.
  split; [by eapply phase_check_fails|].
  destruct (check_inv _ _ _ _ _ Hcheck) as (t & -> & _ & _ & Hinsp & _).
  split; [done|]. by exists t.
Qed.

(** C4.  When every unit passes the check and clearing the destination
    raises an I/O error, [publish_repo] returns a failure whose message
    ends with the message of that error, in the state the clearing left;
    no [extractall] was called on the way. *)
Theorem clearing_failure_stops_before_extraction
    self repo publish_conduit config destination σ σ1 msg σ2 :
  config !! CONFIG_INSTALL_PATH = Some destination → destination ≠ "" →
  _check_for_unsafe_archive_paths self (units_of publish_conduit) destination σ
    = (Ok (), σ1) →
  has_errors (detail_report self) σ1 = (Ok false, σ1) →
  _clear_destination_directory destination σ1 = (Raise (EnvironmentError msg), σ2) →
  publish self repo publish_conduit config σ
    = (Ok (build_failure_report
             ("failed to clear destination directory: " +:+ msg)
             (detail_report self)), σ2)
  ∧ ∃ t, trace σ2 = trace σ ++ t
       ∧ forallb (λ c, negb (is_extractall c)) t = true
       ∧ opened t = storage_path <$> units_of publish_conduit.
Proof.
  intros Hcfg Hne Hcheck Herrs%has_errors_inv Hclear.
  split; [by eapply (phase_clear_raises _ _ _ _ _ _ _ _ _ (EnvironmentError msg))|].
  destruct (check_inv _ _ _ _ _ Hcheck) as (t1 & -> & _ & _ & Hinsp & Hopen).
  destruct (clear_runs (detail_report self) destination
              (after (detail_report self) σ t1 (world σ)))
    as (t2 & Hrun & _ & _ & Hclr & Hopen2).
  unfold runs in Hrun. rewrite Hclear in Hrun. injection Hrun as _ ->.
  exists (t1 ++ t2). split_and!.
  - simpl. by rewrite app_assoc.
  - rewrite forallb_app. apply andb_true_iff. split.
    + revert Hinsp. apply forallb_impl. by intros [].
    + revert Hclr. apply forallb_impl. by intros [].
  - by rewrite opened_app, Hopen, Hopen2, app_nil_r.
Qed.


(** C8.  Without an install path in the configuration, or with the
    empty one, [publish_repo] returns the failure ['install path not
    provided'] and leaves the state exactly as it was: no call is made.
    On a newly created distributor the detail report it returns is the
    empty one. *)
Theorem missing_install_path_fails_at_once self repo publish_conduit config σ :
  config !! CONFIG_INSTALL_PATH = None ∨ config !! CONFIG_INSTALL_PATH = Some "" →
  newly_created self σ →
  ∃ report,
    publish self repo publish_conduit config σ = (Ok report, σ)
    ∧ success_flag report = false
    ∧ summary report = "install path not provided"
    ∧ heap σ !! details report = Some empty_report.
Proof.
  intros Hcfg Hnew. eexists. split; [by apply phase_not_provided|]. done.
Qed.

Lemma outcomes_partition units (outcomes : list (result unit)) :
  length outcomes = length units →
  Forall (λ r, is_ok r || is_io_error r = true) outcomes →
  succeeded units outcomes ++ (failed units outcomes).*1 ≡ₚ unit_key <$> units
  ∧ length (failed units outcomes) = io_failures outcomes
  ∧ length (succeeded units outcomes) = length units - io_failures outcomes.
Proof.
  revert outcomes. induction units as [|u units IH]; intros [|r rs] Hlen Hok;
    try done.
  apply Forall_cons in Hok as [Hr Hok]. injection Hlen as Hlen.
  destruct (IH rs Hlen Hok) as (Hperm & Hfail & Hsucc).
  assert (Hle : (io_failures rs ≤ length units)%nat).
  { unfold io_failures. rewrite <- Hlen. apply filter_length_le. }
  rewrite succeeded_cons, failed_cons. unfold io_failures in *.
  destruct r as [[]|[msg|msg]]; try done; simpl.
  - split_and!; [by f_equiv|done|]. rewrite Hsucc. lia.
  - split_and!; [|by f_equal|done].
    rewrite <- Permutation_middle. by f_equiv.
Qed.

(** C3.  On a newly created distributor, when every unit passes the
    check and the clearing succeeds, and every extraction either succeeds
    or fails with an I/O error, [publish_repo] returns a report whose
    success sequence holds the keys of the units that were extracted and
    whose error sequence holds the keys and messages of those that
    failed, in the order of the units.  With [io_failures outcomes]
    failures among the [length units] units there are that many errors
    and [length units - io_failures outcomes] successes, the keys of the
    two sequences are those of the units, each once, and both
    [has_errors] and the failure of the whole run mean that at least one
    extraction failed. *)
Theorem partial_failures_are_reported_per_unit
    self repo publish_conduit config destination σ σ1 σ2 :
  let units := units_of publish_conduit in
  let outcomes := (extraction destination units (world σ2)).1 in
  config !! CONFIG_INSTALL_PATH = Some destination → destination ≠ "" →
  newly_created self σ →
  _check_for_unsafe_archive_paths self units destination σ = (Ok (), σ1) →
  has_errors (detail_report self) σ1 = (Ok false, σ1) →
  _clear_destination_directory destination σ1 = (Ok (), σ2) →
  Forall (λ r, is_ok r || is_io_error r = true) outcomes →
  ∃ report σ3 r,
    publish self repo publish_conduit config σ = (Ok report, σ3)
    ∧ heap σ3 !! details report = Some r
    ∧ success_unit_keys r = succeeded units outcomes
    ∧ errors r = failed units outcomes
    ∧ length (errors r) = io_failures outcomes
    ∧ length (success_unit_keys r) = length units - io_failures outcomes
    ∧ success_unit_keys r ++ (errors r).*1 ≡ₚ unit_key <$> units
    ∧ (report_has_errors r = true ↔ (0 < io_failures outcomes)%nat)
    ∧ (success_flag report = false ↔ (0 < io_failures outcomes)%nat).
Proof.
  intros units outcomes Hcfg Hne Hnew Hcheck Herrs%has_errors_inv Hclear Hok.
  unfold newly_created in Hnew.
  set (l := detail_report self) in *.
  destruct (check_inv _ _ _ _ _ Hcheck) as (t1 & -> & _ & Hs1 & _ & _).
  fold l in Herrs, Hclear, Hcheck.
  assert (He1 : errors_in t1 = []).
  { unfold l in Herrs. rewrite (errs_after _ _ _ _ empty_report) in Herrs by done.
    by apply report_has_errors_false in Herrs. }
  destruct (clear_runs l destination (after l σ t1 (world σ)))
    as (t2 & Hrun2 & Hs2 & He2 & _).
  unfold runs in Hrun2. rewrite Hclear in Hrun2. injection Hrun2 as _ Hσ2.
  rewrite after_after in Hσ2.
  destruct (publish_runs_ok self destination units σ2 Hok)
    as (t3 & Hrun3 & Hs3 & He3 & _).
  fold outcomes in Hs3, He3. unfold runs in Hrun3. fold l in Hrun3.
  set (σ3 := after l σ2 t3 (extraction destination units (world σ2)).2) in *.
  set (r := {| success_unit_keys := succeeded units outcomes;
               errors := failed units outcomes |}).
  assert (Hr : heap σ3 !! l = Some r).
  { unfold σ3. rewrite Hσ2, after_after, heap_after, Hnew. simpl. f_equal.
    unfold replay, r. simpl.
    rewrite !successes_in_app, !errors_in_app, Hs1, Hs2, He1, He2. simpl.
    by rewrite Hs3, He3. }
  destruct (outcomes_partition units outcomes) as (Hperm & Hfail & Hsucc); [|done|].
  { unfold outcomes. apply extraction_length. }
  assert (Hhas : report_has_errors r = true ↔ (0 < io_failures outcomes)%nat).
  { rewrite <- Hfail. unfold report_has_errors, r. simpl.
    destruct (failed units outcomes); simpl; split; (done || lia). }
  pose proof (phase_publish CONFIG_INSTALL_PATH TYPE_PUPPET_MODULE
                self repo publish_conduit config destination _ _ _ _ _
                Hcfg Hne Hcheck Herrs Hclear Hrun3) as Hpub.
  cbn beta iota in Hpub.
  eexists _, σ3, r. split; [exact Hpub|].
  assert (Herrs3 : errs self σ3 = report_has_errors r).
  { unfold errs. fold l. by rewrite Hr. }
  rewrite Herrs3. split_and!; try done.
  - by destruct (report_has_errors r).
  - rewrite <- Hhas. by destruct (report_has_errors r).
Qed.

Lemma submseteq_NoDup_l {A} (l k : list A) : l ⊆+ k → NoDup k → NoDup l.
Proof.
  intros [k' Hk]%submseteq_Permutation Hnd. rewrite Hk in Hnd.
  by apply NoDup_app in Hnd as [? _].
Qed.

(** C6.  On a newly created distributor and for units with pairwise
    distinct keys, every run of [publish_repo], whatever its outcome,
    keeps the invariant of the detail report at every moment: the run
    ends in the state [after] its calls [t], and at each point of it
    (after the calls of any prefix [t'] of [t]) the report, which is
    then [replay t' empty_report], holds no unit key twice, within a
    sequence or across the two. *)
Theorem report_invariant_throughout_install self repo publish_conduit config σ :
  newly_created self σ →
  NoDup (unit_key <$> units_of publish_conduit) →
  ∃ res t w',
    publish self repo publish_conduit config σ
      = (res, after (detail_report self) σ t w')
    ∧ ∀ t', t' `prefix_of` t →
        heap (after (detail_report self) σ t' w') !! detail_report self
          = Some (replay t' empty_report)
        ∧ report_invariant (replay t' empty_report).
Proof.
  intros Hnew Hnd.
  destruct (publish_repo_runs CONFIG_INSTALL_PATH TYPE_PUPPET_MODULE
              self repo publish_conduit config σ)
    as (res & t & w' & Hrun & Hsub); [by rewrite Hnew|].
  exists res, t, w'. split; [done|].
  intros t' [t'' ->]. split; [by rewrite heap_after, Hnew|].
  unfold report_invariant. simpl.
  apply submseteq_NoDup_l in Hsub; [|done].
  rewrite successes_in_app, errors_in_app, fmap_app in Hsub.
  eapply sublist_NoDup; [exact Hsub|].
  apply sublist_app; by apply sublist_inserts_r.
Qed.

Lemma forallb_false {A} (f : A → bool) (xs : list A) :
  forallb f xs = false ↔ ∃ x, x ∈ xs ∧ f x = false.
Proof.
  induction xs as [|x xs IH]; simpl.
  - split; [done|]. by intros (x & Hx%elem_of_nil & _).
  - rewrite andb_false_iff, IH. split.
    + intros [Hx | (y & Hy & Hfy)].
      * exists x. split; [left|done].
      * exists y. split; [by right|done].
    + intros (y & [->|Hy]%elem_of_cons & Hfy); [by left|right; eauto].
Qed.


(** A publishing loop that returns has met no exception other than
    I/O errors. *)
Lemma publish_ok_outcomes self destination units σ σ' :
  for_each units (publish_unit self destination) σ = (Ok (), σ') →
  Forall (λ r, is_ok r || is_io_error r = true)
    (extraction destination units (world σ)).1.
Proof.
  revert σ. induction units as [|u units IH]; intros σ Hrun; [done|].
  rewrite extraction_cons. cbn [fst].
  destruct (publish_unit_runs self destination u σ) as (t1 & Hu & _).
  unfold runs in Hu. simpl in Hrun. unfold mbind, M_bind in Hrun.
  rewrite Hu in Hrun.
  destruct (extract_unit destination u (world σ)) as [r w1]. cbn [fst snd] in *.
  destruct r as [[]|[msg|msg]]; simpl in Hrun; try done.
  - constructor; [done|]. apply (IH _ Hrun).
  - constructor; [done|]. apply (IH _ Hrun).
Qed.

Lemma no_failure_all_succeeded units (outcomes : list (result unit)) :
  length outcomes = length units →
  Forall (λ r, is_ok r || is_io_error r = true) outcomes →
  failed units outcomes = [] →
  Forall (λ r, is_ok r = true) outcomes
  ∧ succeeded units outcomes = unit_key <$> units.
Proof.
  revert outcomes. induction units as [|u units IH]; intros [|r rs] Hlen Hok Hnone;
    try done.
  apply Forall_cons in Hok as [Hr Hok]. injection Hlen as Hlen.
  rewrite failed_cons in Hnone. rewrite succeeded_cons.
  destruct r as [[]|[msg|msg]]; try done.
  destruct (IH rs Hlen Hok Hnone) as [Hall Hkeys].
  split; [by constructor|]. simpl. by rewrite Hkeys.
Qed.

(** What a run that ends with a success report has done: the
    destination was provided, the report held no error, the clearing
    went through, every archive was extracted, and the key of every
    unit was added to the success sequence. *)
Lemma success_inv self repo publish_conduit config σ report σ' r :
  publish self repo publish_conduit config σ = (Ok report, σ') →
  success_flag report = true →
  heap σ !! detail_report self = Some r →
  ∃ destination w1 outcomes,
    config !! CONFIG_INSTALL_PATH = Some destination
    ∧ clear_world destination (world σ) = (Ok (), w1)
    ∧ extraction destination (units_of publish_conduit) w1 = (outcomes, world σ')
    ∧ Forall (λ r, is_ok r = true) outcomes
    ∧ details report = detail_report self
    ∧ summary report = "success"
    ∧ heap σ' !! detail_report self
      = Some {| success_unit_keys :=
                  success_unit_keys r ++ (unit_key <$> units_of publish_conduit);
                errors := [] |}.
Proof.
  intros Hrun Hflag Hr. set (l := detail_report self) in *.
  set (units := units_of publish_conduit) in *.
  destruct (config !! CONFIG_INSTALL_PATH) as [destination|] eqn:Hcfg; cycle 1.
  { rewrite phase_not_provided in Hrun by auto. by injection Hrun as <- _. }
  destruct (decide (destination = "")) as [->|Hne].
  { rewrite phase_not_provided in Hrun by auto. by injection Hrun as <- _. }
  destruct (check_runs_any self destination units σ)
    as (res1 & t1 & Hcheck & Hs1 & _ & _).
  unfold runs in Hcheck. fold l in Hcheck.
  destruct res1 as [[]|e]; cycle 1.
  { by rewrite (phase_check_raises _ _ _ _ _ _ _ _ _ _ Hcfg Hne Hcheck) in Hrun. }
  destruct (errs self (after l σ t1 (world σ))) eqn:Herrs.
  { rewrite (phase_check_fails _ _ _ _ _ _ _ _ _ Hcfg Hne Hcheck Herrs) in Hrun.
    by injection Hrun as <- _. }
  assert (He1 : errors r = [] ∧ errors_in t1 = []).
  { unfold l in Herrs. rewrite (errs_after _ _ _ _ r) in Herrs by done.
    apply report_has_errors_false in Herrs. simpl in Herrs.
    by apply app_eq_nil in Herrs. }
  destruct He1 as [Her He1].
  destruct (clear_runs l destination (after l σ t1 (world σ)))
    as (t2 & Hclear & Hs2 & He2 & _).
  unfold runs in Hclear. rewrite after_after in Hclear.
  change (world (after l σ t1 (world σ))) with (world σ) in Hclear.
  destruct (clear_world destination (world σ)) as [[[]|e] w1] eqn:Hcw;
    cbn [fst snd] in Hclear; cycle 1.
  { rewrite (phase_clear_raises _ _ _ _ _ _ _ _ _ _ _ Hcfg Hne Hcheck Herrs Hclear)
      in Hrun.
    destruct e; [by injection Hrun as <- _|done]. }
  destruct (for_each units (publish_unit self destination)
              (after l σ (t1 ++ t2) w1)) as [res3 σ3] eqn:Hpub.
  rewrite (phase_publish _ _ _ _ _ _ _ _ _ _ _ _ Hcfg Hne Hcheck Herrs Hclear Hpub)
    in Hrun.
  destruct res3 as [[]|e]; [|done]. injection Hrun as <- <-.
  destruct (errs self σ3) eqn:Herrs3; [done|]. clear Hflag.
  pose proof (publish_ok_outcomes _ _ _ _ _ Hpub) as Hok.
  destruct (publish_runs_ok self destination units _ Hok)
    as (t3 & Hrun3 & Hs3 & He3 & _).
  unfold runs in Hrun3. fold l in Hrun3. rewrite Hpub, after_after in Hrun3.
  change (world (after l σ (t1 ++ t2) w1)) with w1 in *.
  injection Hrun3 as ->.
  assert (Hr3 : heap (after l σ ((t1 ++ t2) ++ t3)
                        (extraction destination units w1).2) !! l
                = Some (replay ((t1 ++ t2) ++ t3) r)).
  { by rewrite heap_after, Hr. }
  unfold errs in Herrs3. fold l in Herrs3. rewrite Hr3 in Herrs3. simpl in Herrs3.
  apply report_has_errors_false in Herrs3. simpl in Herrs3.
  rewrite !errors_in_app, He1, He2, Her, He3 in Herrs3. simpl in Herrs3.
  destruct (no_failure_all_succeeded units (extraction destination units w1).1)
    as [Hall Hkeys]; [apply extraction_length|done..|].
  exists destination, w1, (extraction destination units w1).1.
  split_and!; try done.
  - by destruct (extraction destination units w1).
  - rewrite Hr3. f_equal. unfold replay. simpl.
    rewrite !successes_in_app, !errors_in_app, Hs1, Hs2, He1, He2, Her, He3.
    simpl. by rewrite Hs3, Herrs3, Hkeys.
Qed.

End Install.

(** ** The in-memory file system: paths *)

Module MemFSFacts.

Import MemFS.

Lemma split_nonempty sep s : Py.split sep s ≠ [].
Proof.
  destruct s as [|c s]; simpl; [done|].
  destruct (Ascii.eqb c sep); [done|]. by destruct (Py.split sep s).
Qed.

Lemma split_cons_other sep c s :
  Ascii.eqb c sep = false →
  ∃ x xs, Py.split sep s = x :: xs ∧ Py.split sep (String c s) = String c x :: xs.
Proof.
  intros Hc. simpl. rewrite Hc.
  destruct (Py.split sep s) as [|x xs] eqn:Hs; [by apply split_nonempty in Hs|].
  eauto.
Qed.

Lemma split_append_sep a b :
  Py.split "/" (a +:+ "/" +:+ b) = Py.split "/" a ++ Py.split "/" b.
Proof.
  induction a as [|c a IH]; [done|].
  rewrite append_cons.
  destruct (Ascii.eqb c "/") eqn:Hc.
  - simpl. rewrite Hc. simpl. by rewrite IH.
  - destruct (split_cons_other "/" c a Hc) as (x & xs & Hs & ->).
    simpl. rewrite Hc, IH, Hs. done.
Qed.

Lemma endswith_inv s suffix :
  Py.endswith s suffix = true → ∃ a, s = a +:+ suffix.
Proof.
  induction s as [|c s IH].
  - destruct suffix; [by exists ""|done].
  - rewrite endswith_cons. intros [<-%String.eqb_eq | Hs]%orb_true_iff.
    + by exists "".
    + destruct (IH Hs) as [a ->]. by exists (String c a).
Qed.

Lemma valid_name_inv c :
  valid_name c = true →
  c ≠ "" ∧ c ≠ "." ∧ c ≠ ".." ∧ Py.split "/" c = [c].
Proof.
  unfold valid_name. rewrite !andb_true_iff, !negb_true_iff, !String.eqb_neq.
  rewrite bool_decide_eq_true. by intros [[[? ?] ?] ?].
Qed.

Lemma string_prefix_cons a s b t :
  String.prefix (String a s) (String b t)
  = if Ascii.ascii_dec a b then String.prefix s t else false.
Proof. reflexivity. Qed.

Lemma valid_name_not_absolute c : valid_name c = true → Py.startswith c "/" = false.
Proof.
  intros (Hne & _ & _ & Hsplit)%valid_name_inv.
  destruct c as [|a c]; [done|].
  unfold Py.startswith. rewrite string_prefix_cons.
  destruct (Ascii.ascii_dec "/" a) as [<-|Ha]; [|done].
  simpl in Hsplit. done.
Qed.

Lemma normpath_step_valid comps c :
  valid_name c = true → Py.normpath_step 1 comps c = comps ++ [c].
Proof.
  intros (Hne & Hdot & Hdots & _)%valid_name_inv. unfold Py.normpath_step.
  apply String.eqb_neq in Hne, Hdot, Hdots. by rewrite Hne, Hdot, Hdots.
Qed.

Lemma normpath_comps_app n a b :
  Py.split "/" b = [b] →
  Py.normpath_comps n (a +:+ "/" +:+ b)
  = Py.normpath_step n (Py.normpath_comps n a) b.
Proof.
  intros Hb. unfold Py.normpath_comps.
  by rewrite split_append_sep, Hb, fold_left_app.
Qed.

(** The join of a directory and the name of one of its entries leads to
    that entry. *)
Lemma resolve_join destination c :
  valid_name c = true →
  resolve (Py.join destination c) = resolve destination ++ [c].
Proof.
  intros Hc. pose proof (valid_name_inv c Hc) as (_ & _ & _ & Hsplit).
  unfold Py.join. rewrite (valid_name_not_absolute c Hc).
  destruct (String.eqb_spec destination "") as [->|Hne]; simpl.
  - unfold resolve, Py.normpath_comps. change ("" +:+ c) with c.
    rewrite Hsplit. simpl. by rewrite normpath_step_valid.
  - destruct (Py.endswith destination "/") eqn:He.
    + apply endswith_inv in He as [a ->]. rewrite append_assoc.
      unfold resolve. rewrite normpath_comps_app by done.
      rewrite normpath_step_valid by done. f_equal.
      rewrite <- (append_nil_r (a +:+ "/")), append_assoc.
      by rewrite normpath_comps_app.
    + unfold resolve. rewrite normpath_comps_app by done.
      by rewrite normpath_step_valid.
Qed.

(** *** Listing and removing *)

Lemma strip_prefix_Some (d k r : list string) : strip_prefix d k = Some r ↔ k = d ++ r.
Proof.
  revert k. induction d as [|x d IH]; intros k; simpl.
  - split; congruence.
  - destruct k as [|y k]; [done|]. case_decide as Hxy.
    + subst y. rewrite IH. split; [by intros ->|]. by intros [= ->].
    + split; [done|]. by intros [= -> _].
Qed.

Lemma children_spec (d : list string) (t : tree) (c : string) : c ∈ children d t ↔ is_Some (t !! (d ++ [c])).
Proof.
  unfold children. rewrite list_elem_of_omap. split.
  - intros ([k v] & Hkv%elem_of_map_to_list & Hc). simpl in Hc.
    unfold child_name in Hc.
    destruct (strip_prefix d k) as [[|c' [|]]|] eqn:Hs; try done.
    injection Hc as ->. apply strip_prefix_Some in Hs as ->. eauto.
  - intros [v Hv]. exists (d ++ [c], v). split; [by apply elem_of_map_to_list|].
    simpl. unfold child_name.
    by rewrite (proj2 (strip_prefix_Some d (d ++ [c]) [c]) eq_refl).
Qed.

Lemma remove_tree_lookup (q : list string) (t : tree) (p : list string) :
  remove_tree q t !! p = if decide (q `prefix_of` p) then None else t !! p.
Proof.
  unfold remove_tree. case_decide as Hq.
  - apply map_lookup_filter_None. right. intros v _ Hn. by apply Hn.
  - destruct (t !! p) as [v|] eqn:Hp.
    + by apply map_lookup_filter_Some.
    + apply map_lookup_filter_None. by left.
Qed.

Lemma prefix_snoc_snoc (d : list string) c c' :
  (d ++ [c]) `prefix_of` (d ++ [c']) → c = c'.
Proof.
  intros Hp%prefix_app_inv. destruct Hp as [k Hk]. by injection Hk.
Qed.

Lemma clear_children_spec (destination : string) (names : list string) (t : tree) :
  Forall (λ c, valid_name c = true) names →
  ∃ t',
    clear_children destination names t = (Ok (), t')
    ∧ (∀ p, struck (resolve destination) names t p → t' !! p = None)
    ∧ (∀ p, ¬ struck (resolve destination) names t p → t' !! p = t !! p)
    ∧ (∀ p, t' !! p = None ∨ t' !! p = t !! p).
Proof.
  set (d := resolve destination).
  revert t. induction names as [|c names IH]; intros t Hvalid.
  - exists t. split_and!; [done| |done|by right].
    by intros p (c & Hc%elem_of_nil & _).
  - apply Forall_cons in Hvalid as [Hc Hvalid]. simpl.
    unfold is_dir, rmtree. rewrite (resolve_join destination c Hc). fold d.
    destruct (t !! (d ++ [c])) as [[| |]|] eqn:Hdc; simpl.
    1,2,4: destruct (IH t Hvalid) as (t' & -> & Hhit & Hmiss & Hsub); exists t';
      (split_and!; [done| | |done]); intros p Hp;
      [ apply Hhit; destruct Hp as (c' & [->|Hc']%elem_of_cons & Hpre & Hdir);
          [congruence|by exists c']
      | apply Hmiss; intros (c' & Hc' & Hpre & Hdir); apply Hp;
          exists c'; split_and!; [by right|done..] ].
    destruct (IH (remove_tree (d ++ [c]) t) Hvalid)
      as (t' & -> & Hhit & Hmiss & Hsub).
    assert (Hgone : ∀ p, (d ++ [c]) `prefix_of` p → t' !! p = None).
    { intros p Hpre. destruct (Hsub p) as [?| ->]; [done|].
      rewrite remove_tree_lookup. by rewrite decide_True. }
    exists t'. split_and!; [done| | |]; intros p; [intros Hp..|].
    + destruct (decide ((d ++ [c]) `prefix_of` p)) as [Hpre|Hpre].
      * by apply Hgone.
      * apply Hhit. destruct Hp as (c' & [->|Hc']%elem_of_cons & Hpre' & Hdir);
          [done|].
        exists c'. split_and!; [done..|].
        rewrite remove_tree_lookup, decide_False; [done|].
        by intros ->%prefix_snoc_snoc.
    + rewrite Hmiss.
      * rewrite remove_tree_lookup, decide_False; [done|].
        intros Hpre. apply Hp. exists c. split_and!; [left|done..].
      * intros (c' & Hc' & Hpre & Hdir). apply Hp.
        exists c'. split_and!; [by right|done|].
        rewrite remove_tree_lookup in Hdir. by case_decide.
    + destruct (Hsub p) as [?| ->]; [by left|].
      rewrite remove_tree_lookup. case_decide; [by left|by right].
Qed.

Lemma clear_world_spec (destination : string) (t : tree) :
  (∀ c, is_Some (t !! (resolve destination ++ [c])) → valid_name c = true) →
  t !! resolve destination = Some Directory →
  ∃ t',
    clear_world destination t = (Ok (), t')
    ∧ (∀ p, below_subdirectory (resolve destination) t p → t' !! p = None)
    ∧ (∀ p, ¬ below_subdirectory (resolve destination) t p → t' !! p = t !! p)
    ∧ (∀ p, t' !! p = None ∨ t' !! p = t !! p).
Proof.
  intros Hvalid Hdir. unfold clear_world. simpl. unfold list_directory.
  rewrite Hdir.
  destruct (clear_children_spec destination (children (resolve destination) t) t)
    as (t' & Hrun & Hhit & Hmiss & Hsub).
  { apply Forall_forall. intros c Hc%children_spec. by apply Hvalid. }
  exists t'. split_and!; [done| | |done]; intros p Hp.
  - apply Hhit. destruct Hp as (c & Hpre & Hc). exists c. split_and!; [|done..].
    apply children_spec. by rewrite Hc.
  - apply Hmiss. intros (c & _ & Hpre & Hc). apply Hp. by exists c.
Qed.

Lemma well_formed_names (t : tree) (c : string) (p : list string) :
  well_formed t → is_Some (t !! (p ++ [c])) → valid_name c = true.
Proof. intros [_ Hwf] Hc. by apply (Hwf p c). Qed.

Lemma is_directory_true (o : option node) :
  is_directory o = true → o = Some Directory.
Proof. by destruct o as [[| |]|]. Qed.

Lemma well_formed_b_sound (t : tree) : well_formed_b t = true → well_formed t.
Proof.
  unfold well_formed_b. intros [Hroot Hall]%andb_true_iff.
  split; [by apply is_directory_true|].
  intros p c [v Hv]. rewrite forallb_forall in Hall.
  specialize (Hall (p ++ [c], v)). simpl in Hall.
  rewrite last_snoc, removelast_last in Hall.
  apply andb_true_iff in Hall as [Hc Hp].
  - split; [done|]. by apply is_directory_true.
  - by apply list_elem_of_In, elem_of_map_to_list.
Qed.

Section Clearing.

Context {K : Type}.
Variables CONFIG_INSTALL_PATH TYPE_PUPPET_MODULE : string.
Implicit Types (σ : @state K tree).

Local Abbreviation publish := (publish_repo CONFIG_INSTALL_PATH TYPE_PUPPET_MODULE).
Local Abbreviation units_of publish_conduit := (get_units publish_conduit [TYPE_PUPPET_MODULE]).

(** What clearing does to a state in which the destination is a
    directory whose entries have proper names. *)
Lemma clear_destination_spec l destination σ :
  (∀ c, is_Some (world σ !! (resolve destination ++ [c])) → valid_name c = true) →
  world σ !! resolve destination = Some Directory →
  ∃ t w',
    _clear_destination_directory destination σ = (Ok (), after l σ t w')
    ∧ successes_in t = [] ∧ errors_in t = []
    ∧ clear_world destination (world σ) = (Ok (), w')
    ∧ (∀ p, below_subdirectory (resolve destination) (world σ) p → w' !! p = None)
    ∧ (∀ p, ¬ below_subdirectory (resolve destination) (world σ) p →
         w' !! p = world σ !! p).
Proof.
  intros Hvalid Hdir.
  destruct (clear_world_spec destination (world σ) Hvalid Hdir)
    as (w' & Hclear & Hhit & Hmiss & _).
  destruct (clear_runs l destination σ) as (t & Hrun & Hs & He & _).
  unfold runs in Hrun. rewrite Hclear in Hrun. by exists t, w'.
Qed.

(** C7.  In a well-formed tree where the destination is a directory,
    [_clear_destination_directory] returns normally and removes exactly
    what is at or below a directory that sits directly in the
    destination: every such entry is gone, and every other entry of the
    tree is as it was, in particular every entry directly in the
    destination that is not a directory.  No detail report changes. *)
Theorem clearing_deletes_exactly_the_subdirectories destination σ :
  let d := resolve destination in
  well_formed (world σ) →
  world σ !! d = Some Directory →
  ∃ σ',
    _clear_destination_directory destination σ = (Ok (), σ')
    ∧ heap σ' = heap σ
    ∧ (∀ c rest, world σ !! (d ++ [c]) = Some Directory →
         world σ' !! (d ++ c :: rest) = None)
    ∧ (∀ c v, world σ !! (d ++ [c]) = Some v → v ≠ Directory →
         world σ' !! (d ++ [c]) = Some v)
    ∧ (∀ p, ¬ below_subdirectory d (world σ) p → world σ' !! p = world σ !! p).
Proof.
  intros d Hwf Hdir.
  destruct (clear_destination_spec 1%positive destination σ)
    as (t & w' & Hrun & Hs & He & _ & Hhit & Hmiss); [|done|].
  { intros c. by apply well_formed_names. }
  fold d in Hhit, Hmiss.
  exists (after 1%positive σ t w'). split_and!; [done| | | |done].
  - simpl. symmetry. by apply alter_replay_none.
  - intros c rest Hc. apply Hhit. exists c. split; [|done].
    exists rest. by rewrite <- app_assoc.
  - intros c v Hc Hv. simpl. rewrite Hmiss; [done|].
    intros (c' & Hpre & Hc'). apply prefix_snoc_snoc in Hpre as ->. congruence.
Qed.

(** C10.  With a destination that is a directory of a well-formed tree
    and no units at all, [publish_repo] on a newly created distributor
    still clears the destination (all that is at or below one of its
    sub-directories is gone, the rest of the tree is as it was) and
    returns the success report, whose two sequences are empty. *)
Theorem empty_unit_list_clears_and_succeeds
    self repo publish_conduit config destination σ :
  let d := resolve destination in
  config !! CONFIG_INSTALL_PATH = Some destination → destination ≠ "" →
  units_of publish_conduit = [] →
  newly_created self σ →
  well_formed (world σ) →
  world σ !! d = Some Directory →
  ∃ report σ',
    publish self repo publish_conduit config σ = (Ok report, σ')
    ∧ success_flag report = true
    ∧ summary report = "success"
    ∧ heap σ' !! details report = Some empty_report
    ∧ (∀ c rest, world σ !! (d ++ [c]) = Some Directory →
         world σ' !! (d ++ c :: rest) = None)
    ∧ (∀ p, ¬ below_subdirectory d (world σ) p → world σ' !! p = world σ !! p).
Proof.
  intros d Hcfg Hne Hunits Hnew Hwf Hdir. unfold newly_created in Hnew.
  set (l := detail_report self) in *.
  destruct (clear_destination_spec l destination σ)
    as (t & w' & Hrun & Hs & He & _ & Hhit & Hmiss); [|done|].
  { intros c. by apply well_formed_names. }
  fold d in Hhit, Hmiss.
  assert (Hheap : heap (after l σ t w') !! l = Some empty_report).
  { rewrite heap_after, Hnew. simpl. unfold replay. by rewrite Hs, He. }
  assert (Herrs0 : errs self σ = false) by (unfold errs; fold l; by rewrite Hnew).
  assert (Herrs : errs self (after l σ t w') = false).
  { unfold errs. fold l. by rewrite Hheap. }
  pose proof (phase_publish CONFIG_INSTALL_PATH TYPE_PUPPET_MODULE
                self repo publish_conduit config destination σ σ
                (after l σ t w') (Ok ()) (after l σ t w') Hcfg Hne) as Hpub.
  rewrite Hunits in Hpub. specialize (Hpub eq_refl Herrs0 Hrun eq_refl).
  cbn beta iota in Hpub. rewrite Herrs in Hpub.
  eexists _, _. split; [exact Hpub|]. split_and!; [done..| |done].
  intros c rest Hc. apply Hhit. exists c. split; [|done].
  exists rest. by rewrite <- app_assoc.
Qed.

End Clearing.

End MemFSFacts.

(** ** The in-memory file system: extraction *)

Module MemFSExtraction.

Import MemFS MemFSFacts.

Lemma apply_writes_app (ws1 ws2 : list (list string * node)) (t : tree) :
  apply_writes (ws1 ++ ws2) t = apply_writes ws2 (apply_writes ws1 t).
Proof. apply fold_left_app. Qed.

Lemma apply_writes_union (ws : list (list string * node)) (m t : tree) :
  apply_writes ws (m ∪ t) = apply_writes ws m ∪ t.
Proof.
  revert m. induction ws as [|[k v] ws IH]; intros m; [done|].
  simpl. by rewrite insert_union_l, IH.
Qed.

(** A batch of writes wins over what the tree held. *)
Lemma apply_writes_lookup (ws : list (list string * node)) (t : tree) (p : list string) :
  apply_writes ws t !! p
  = match apply_writes ws ∅ !! p with Some v => Some v | None => t !! p end.
Proof.
  rewrite <- (left_id_L ∅ (∪) t) at 1. rewrite apply_writes_union.
  rewrite lookup_union. by destruct (apply_writes ws ∅ !! p), (t !! p).
Qed.

Lemma makedirs_ok (dirs : list (list string)) (t t' : tree) :
  makedirs dirs t = (Ok (), t') →
  t' = apply_writes ((λ q, (q, Directory)) <$> dirs) t.
Proof.
  revert t. induction dirs as [|q dirs IH]; intros t; simpl.
  - congruence.
  - destruct (t !! q) as [[| |]|] eqn:Hq; try done.
    + intros Hrun. rewrite insert_id by done. by apply IH.
    + apply IH.
Qed.

Lemma extract_member_ok (destination : string) (m : member) (t t' : tree) :
  extract_member destination m t = (Ok (), t') →
  t' = apply_writes (writes destination m) t.
Proof.
  unfold extract_member, writes, member_node.
  set (target := resolve (Py.join destination (member_name m))).
  destruct (makedirs (ancestors target) t) as [[[]|e] t1] eqn:Hmk; [|done].
  apply makedirs_ok in Hmk as ->. rewrite apply_writes_app. simpl.
  set (t1 := apply_writes _ t).
  destruct (member_body m) as [data|].
  - destruct (is_directory (t1 !! target)); [done|]. congruence.
  - destruct (t1 !! target) as [[| |]|] eqn:Ht; try done; intros [= <-]; [|done].
    by rewrite insert_id.
Qed.

Lemma extract_members_ok (members : list member) (destination : string) (t t' : tree) :
  extract_members members destination t = (Ok (), t') →
  t' = apply_writes (m ← members; writes destination m) t.
Proof.
  revert t. induction members as [|m members IH]; intros t; simpl.
  - congruence.
  - destruct (extract_member destination m t) as [[[]|e] t1] eqn:Hm; [|done].
    apply extract_member_ok in Hm as ->. intros Hrun.
    rewrite apply_writes_app. by apply IH.
Qed.

Lemma writes_no_tarball (destination : string) (m : member) :
  Forall (λ kv, is_tarball kv.2 = false) (writes destination m).
Proof.
  unfold writes. apply Forall_app. split.
  - apply Forall_fmap, Forall_true. done.
  - constructor; [|done]. unfold member_node. simpl. by destruct (member_body m).
Qed.

Lemma archives_from_refl (t : tree) : archives_from t t.
Proof. by intros p members. Qed.

Lemma archives_from_apply (ws : list (list string * node)) (t0 t : tree) :
  Forall (λ kv, is_tarball kv.2 = false) ws →
  archives_from t0 t → archives_from t0 (apply_writes ws t).
Proof.
  revert t. induction ws as [|[k v] ws IH]; intros t Hws Ht; [done|].
  apply Forall_cons in Hws as [Hv Hws]. simpl. apply IH; [done|].
  intros p members. simpl in Hv.
  destruct (decide (k = p)) as [->|Hne].
  - rewrite lookup_insert_eq. intros [= ->]. done.
  - rewrite lookup_insert_ne by done. apply Ht.
Qed.

Lemma archives_from_shrink (t0 t t' : tree) :
  (∀ p, t' !! p = None ∨ t' !! p = t !! p) →
  archives_from t0 t → archives_from t0 t'.
Proof.
  intros Hsub Ht p members Hp. apply Ht.
  destruct (Hsub p) as [Hn|<-]; [congruence|done].
Qed.

Section Units.

Context {K : Type}.
Implicit Types (u : AssociatedUnit K) (units : list (AssociatedUnit K)).

Lemma archive_writes_no_tarball (t0 : tree) (destination : string) u :
  Forall (λ kv, is_tarball kv.2 = false)
    (m ← archive_of t0 u; writes destination m).
Proof.
  induction (archive_of t0 u) as [|m ms IH]; [done|].
  simpl. apply Forall_app. split; [apply writes_no_tarball|done].
Qed.

(** Extracting the archive of a unit, when it goes through, applies the
    writes of the archive the first tree held at that place. *)
Lemma extract_unit_ok (t0 t t' : tree) (destination : string) u :
  archives_from t0 t →
  extract_unit destination u t = (Ok (), t') →
  t' = apply_writes (m ← archive_of t0 u; writes destination m) t.
Proof.
  intros Hfrom. unfold extract_unit. simpl. unfold open_archive, archive_of.
  destruct (t !! resolve (storage_path u)) as [[| |]|] eqn:Hu; try done.
  rewrite (Hfrom _ _ Hu). apply extract_members_ok.
Qed.

Lemma extraction_ok (t0 t t' : tree) (destination : string) units outcomes :
  archives_from t0 t →
  extraction destination units t = (outcomes, t') →
  Forall (λ r, is_ok r = true) outcomes →
  t' = apply_writes (units_writes t0 destination units) t
  ∧ archives_from t0 t'.
Proof.
  revert t t' outcomes.
  induction units as [|u units IH]; intros t t' outcomes Hfrom.
  - simpl. by intros [= <- <-] _.
  - rewrite extraction_cons. intros [= <- <-] [Hu Hok]%Forall_cons.
    destruct (extract_unit destination u t) as [r t1] eqn:Hext. cbn [fst snd] in *.
    destruct r as [[]|e]; [|done].
    apply (extract_unit_ok t0) in Hext as ->; [|done].
    destruct (extraction destination units
                (apply_writes (m ← archive_of t0 u; writes destination m) t))
      as [rs t2] eqn:Hrest. cbn [fst snd] in *.
    assert (Hfrom1 : archives_from t0
              (apply_writes (m ← archive_of t0 u; writes destination m) t)).
    { apply archives_from_apply; [apply archive_writes_no_tarball|done]. }
    destruct (IH _ _ rs Hfrom1 Hrest Hok) as [Heq Hfrom2].
    split; [|done]. rewrite Heq. unfold units_writes. simpl. by rewrite apply_writes_app.
Qed.

End Units.

(** *** Names *)

Lemma split_no_separator (s x : string) :
  x ∈ Py.split "/" s → Py.split "/" x = [x].
Proof.
  revert x. induction s as [|c s IH]; intros x.
  - simpl. by intros ->%list_elem_of_singleton.
  - destruct (Ascii.eqb c "/") eqn:Hc.
    + simpl. rewrite Hc. intros [->|Hx]%elem_of_cons; [done|]. by apply IH.
    + destruct (split_cons_other "/" c s Hc) as (y & ys & Hs & ->).
      rewrite Hs in IH. intros [->|Hx]%elem_of_cons.
      * simpl. rewrite Hc. rewrite (IH y) by left. done.
      * apply IH. by right.
Qed.

Lemma normpath_step_keeps_valid (acc : list string) (comp : string) :
  Py.split "/" comp = [comp] →
  Forall (λ c, valid_name c = true) acc →
  Forall (λ c, valid_name c = true) (Py.normpath_step 1 acc comp).
Proof.
  intros Hcomp Hacc. unfold Py.normpath_step.
  destruct (String.eqb_spec comp "") as [->|Hne]; [done|].
  destruct (String.eqb_spec comp ".") as [->|Hdot]; [done|]. simpl.
  destruct (String.eqb_spec comp "..") as [->|Hdots]; simpl.
  - case_bool_decide as Hlast.
    + apply last_Some in Hlast as [acc' ->].
      by apply Forall_app in Hacc as [_ [? _]%Forall_cons].
    + destruct acc as [|a acc _] using rev_ind; [done|].
      rewrite removelast_last. by apply Forall_app in Hacc as [? _].
  - apply Forall_app. split; [done|]. constructor; [|done].
    unfold valid_name. apply String.eqb_neq in Hne, Hdot, Hdots.
    rewrite Hne, Hdot, Hdots. simpl. by apply bool_decide_eq_true.
Qed.

Lemma normpath_fold_valid (comps acc : list string) :
  (∀ x, x ∈ comps → Py.split "/" x = [x]) →
  Forall (λ c, valid_name c = true) acc →
  Forall (λ c, valid_name c = true) (fold_left (Py.normpath_step 1) comps acc).
Proof.
  revert acc. induction comps as [|comp comps IH]; intros acc Hsplit Hacc; [done|].
  simpl. apply IH.
  - intros x Hx. apply Hsplit. by right.
  - apply normpath_step_keeps_valid; [|done]. apply Hsplit. left.
Qed.

(** The components of a resolved path are names. *)
Lemma resolve_valid (path : string) : Forall (λ c, valid_name c = true) (resolve path).
Proof.
  unfold resolve, Py.normpath_comps. apply normpath_fold_valid; [|done].
  apply split_no_separator.
Qed.

Lemma ancestors_prefix (p q : list string) : q ∈ ancestors p → q `prefix_of` p.
Proof.
  revert q. induction p as [|c p IH]; intros q; simpl.
  - by intros ?%elem_of_nil.
  - intros [->|Hq]%elem_of_cons; [apply prefix_nil|].
    apply list_elem_of_fmap in Hq as (q' & -> & Hq'). by apply prefix_cons, IH.
Qed.

Lemma writes_valid (destination : string) (m : member) :
  Forall (λ kv, Forall (λ c, valid_name c = true) kv.1) (writes destination m).
Proof.
  unfold writes.
  set (target := resolve (Py.join destination (member_name m))).
  pose proof (resolve_valid (Py.join destination (member_name m))) as Hvalid.
  fold target in Hvalid. apply Forall_app. split; [|by constructor].
  apply Forall_fmap, Forall_forall. intros q [r Hq]%ancestors_prefix. simpl.
  rewrite Hq in Hvalid. by apply Forall_app in Hvalid as [? _].
Qed.

Lemma names_valid_apply (ws : list (list string * node)) (t : tree) :
  Forall (λ kv, Forall (λ c, valid_name c = true) kv.1) ws →
  names_valid t → names_valid (apply_writes ws t).
Proof.
  revert t. induction ws as [|[k v] ws IH]; intros t Hws Ht; [done|].
  apply Forall_cons in Hws as [Hk Hws]. simpl. apply IH; [done|].
  intros p. destruct (decide (k = p)) as [->|Hne].
  - done.
  - rewrite lookup_insert_ne by done. apply Ht.
Qed.

Lemma names_valid_shrink (t t' : tree) :
  (∀ p, t' !! p = None ∨ t' !! p = t !! p) →
  names_valid t → names_valid t'.
Proof.
  intros Hsub Ht p Hp. apply Ht.
  destruct (Hsub p) as [Hn|<-]; [|done]. rewrite Hn in Hp. by destruct Hp.
Qed.

Lemma well_formed_names_valid (t : tree) : well_formed t → names_valid t.
Proof.
  intros [Hroot Hwf] p. induction p as [|c p IH] using rev_ind; [done|].
  intros Hp. destruct (Hwf p c Hp) as [Hc Hdir].
  apply Forall_app. split; [|by constructor]. apply IH. by rewrite Hdir.
Qed.

(** In a well-formed tree all that is above an entry is a directory. *)
Lemma well_formed_above (t : tree) (q r : list string) :
  well_formed t → is_Some (t !! (q ++ r)) → r ≠ [] → t !! q = Some Directory.
Proof.
  intros [Hroot Hwf]. induction r as [|c r IH] using rev_ind; [done|].
  intros Hp _. rewrite app_assoc in Hp. destruct (Hwf _ c Hp) as [_ Hdir].
  destruct r as [|c' r]; [by rewrite app_nil_r in Hdir|].
  apply IH; [by rewrite Hdir|done].
Qed.

End MemFSExtraction.

(** ** Installing twice *)

Module Reinstall.

Import MemFS MemFSFacts MemFSExtraction.

Lemma clear_world_ok_inv (destination : string) (t t' : tree) :
  clear_world destination t = (Ok (), t') →
  t !! resolve destination = Some Directory.
Proof.
  unfold clear_world. simpl. unfold list_directory.
  by destruct (t !! resolve destination) as [[| |]|].
Qed.

Lemma units_writes_valid {K : Type} (t0 : tree) (destination : string)
    (units : list (AssociatedUnit K)) :
  Forall (λ kv, Forall (λ c, valid_name c = true) kv.1)
    (units_writes t0 destination units).
Proof.
  unfold units_writes. induction units as [|u units IH]; [done|].
  simpl. apply Forall_app. split; [|done].
  induction (archive_of t0 u) as [|m ms IHm]; [done|].
  simpl. apply Forall_app. split; [apply writes_valid|done].
Qed.

(** Clearing and extracting the same archives a second time gives the
    tree of the first time. *)
Lemma reinstall_same_tree {K : Type} (w0 w1 w2 w3 w4 : tree) (destination : string)
    (units : list (AssociatedUnit K)) (outcomes outcomes' : list (result unit)) :
  well_formed w0 →
  clear_world destination w0 = (Ok (), w1) →
  extraction destination units w1 = (outcomes, w2) →
  Forall (λ r, is_ok r = true) outcomes →
  clear_world destination w2 = (Ok (), w3) →
  extraction destination units w3 = (outcomes', w4) →
  Forall (λ r, is_ok r = true) outcomes' →
  w4 = w2.
Proof.
  intros Hwf Hclear1 Hext1 Hok1 Hclear2 Hext2 Hok2.
  set (d := resolve destination).
  pose proof (well_formed_names_valid w0 Hwf) as Hnames0.
  (* the first clearing *)
  destruct (clear_world_spec destination w0)
    as (w1' & Hc1 & Hhit1 & Hmiss1 & Hsub1).
  { intros c. by apply well_formed_names. }
  { by eapply clear_world_ok_inv. }
  rewrite Hclear1 in Hc1. injection Hc1 as <-. fold d in Hhit1, Hmiss1.
  (* the first extraction *)
  destruct (extraction_ok w0 w1 w2 destination units outcomes) as [Hw2 Hfrom2];
    [by eapply archives_from_shrink, archives_from_refl|done..|].
  set (ws := units_writes w0 destination units) in *.
  assert (Hnames2 : names_valid w2).
  { rewrite Hw2. apply names_valid_apply; [apply units_writes_valid|].
    by eapply names_valid_shrink. }
  (* the second clearing *)
  destruct (clear_world_spec destination w2)
    as (w3' & Hc3 & Hhit3 & Hmiss3 & Hsub3).
  { intros c Hc. apply Hnames2 in Hc. by apply Forall_app in Hc as [_ [? _]%Forall_cons]. }
  { by eapply clear_world_ok_inv. }
  rewrite Hclear2 in Hc3. injection Hc3 as <-. fold d in Hhit3, Hmiss3.
  (* the second extraction *)
  destruct (extraction_ok w0 w3 w4 destination units outcomes') as [Hw4 _];
    [by eapply archives_from_shrink|done..|].
  fold ws in Hw4.
  (* entry by entry *)
  apply map_eq. intros p.
  rewrite Hw4, Hw2, (apply_writes_lookup ws w3), (apply_writes_lookup ws w1).
  destruct (apply_writes ws ∅ !! p) as [v|] eqn:Hwritten; [done|].
  assert (Hw2p : w2 !! p = w1 !! p).
  { by rewrite Hw2, apply_writes_lookup, Hwritten. }
  destruct (w1 !! p) as [v|] eqn:Hw1p.
  - rewrite Hmiss3; [by rewrite Hw2p|].
    intros (c & [r Hpre] & Hc).
    assert (Hw0p : w0 !! p = Some v).
    { destruct (Hsub1 p) as [?| <-]; [congruence|done]. }
    assert (Hbelow : below_subdirectory d w0 p).
    { exists c. split; [by exists r|].
      destruct r as [|c' r].
      - rewrite app_nil_r in Hpre. subst p. congruence.
      - apply (well_formed_above w0 (d ++ [c]) (c' :: r)); [done| |done].
        by rewrite <- Hpre, Hw0p. }
    apply Hhit1 in Hbelow. congruence.
  - destruct (Hsub3 p) as [?| ->]; [done|]. by rewrite Hw2p.
Qed.

Section Twice.

Context {K : Type}.
Variables CONFIG_INSTALL_PATH TYPE_PUPPET_MODULE : string.
Implicit Types (σ : @state K tree).

Local Abbreviation publish := (publish_repo CONFIG_INSTALL_PATH TYPE_PUPPET_MODULE).
Local Abbreviation units_of publish_conduit := (get_units publish_conduit [TYPE_PUPPET_MODULE]).


End Twice.

End Reinstall.

(** ** The theorems at work on the example disk *)

Module Witnesses.

Import MemFS MemFSFacts Example.

(** The first component of a run, computed. *)
Ltac run_result := vm_compute; reflexivity.

(** [has_errors] answers [b] and leaves the state as it is. *)
Ltac has_errors_is b :=
  rewrite (has_errors_errs installer);
  match goal with
  | |- (Ok ?e, _) = _ => replace e with b; [reflexivity | vm_compute; reflexivity]
  end.

Lemma disk_well_formed : well_formed disk.
Proof. apply well_formed_b_sound. vm_compute. reflexivity. Defined.

(** The spec's own examples of the path check. *)
Example escapes_etc_passwd : escapes "/srv/puppet" "../../etc/passwd" = true.
Proof. reflexivity. Qed.

Example stays_inside : escapes "/srv/puppet" "modules/foo/init.pp" = false.
Proof. reflexivity. Qed.

(** An entry that resolves to the destination itself counts as escaping
    it, since the destination does not start with itself and a slash. *)
Example dot_entry_is_rejected :
  escapes "/srv/puppet" "." = true
  ∧ paths_are_safe "/srv/puppet" ["."] = false.
Proof. split; reflexivity. Qed.

(** On the empty destination the loop of the code and the definition of
    the specification part: the loop joins later names to ["/"]. *)
Example empty_destination_differs :
  paths_are_safe "" ["/a"; "b"] = true ∧ IsSafe "" ["/a"; "b"] = false.
Proof. split; reflexivity. Qed.

Lemma unsafe_unit_aborts_before_any_mutation_witness :
  publish_repo CONFIG_INSTALL_PATH TYPE_PUPPET_MODULE installer repo
    (conduit [unit_mymodule; unit_evil]) (config "/srv/puppet") (boot disk)
    = (Ok (build_failure_report "failed" (detail_report installer)),
       checked [unit_mymodule; unit_evil] "/srv/puppet")
  ∧ world (checked [unit_mymodule; unit_evil] "/srv/puppet") = world (boot disk)
  ∧ ∃ t, trace (checked [unit_mymodule; unit_evil] "/srv/puppet")
           = trace (boot disk) ++ t
         ∧ forallb is_inspection t = true.
Proof.
  refine (unsafe_unit_aborts_before_any_mutation
            CONFIG_INSTALL_PATH TYPE_PUPPET_MODULE installer repo
            (conduit [unit_mymodule; unit_evil]) (config "/srv/puppet")
            "/srv/puppet" (boot disk)
            (checked [unit_mymodule; unit_evil] "/srv/puppet") _ _ _ _).
  - run_result.
  - discriminate.
  - refine (run_to_its_state
              (_check_for_unsafe_archive_paths installer
                 [unit_mymodule; unit_evil] "/srv/puppet") (boot disk) (Ok ()) _).
    run_result.
  - has_errors_is true.
Defined.


Lemma partial_failures_are_reported_per_unit_witness :
  ∃ report σ3 r,
    publish_repo CONFIG_INSTALL_PATH TYPE_PUPPET_MODULE installer repo
      (conduit [unit_mymodule; unit_clash]) (config "/srv/puppet") (boot disk)
      = (Ok report, σ3)
    ∧ heap σ3 !! details report = Some r
    ∧ success_unit_keys r
      = succeeded (get_units (conduit [unit_mymodule; unit_clash]) [TYPE_PUPPET_MODULE])
          (extraction "/srv/puppet"
             (get_units (conduit [unit_mymodule; unit_clash]) [TYPE_PUPPET_MODULE])
             (world (cleared [unit_mymodule; unit_clash] "/srv/puppet"))).1
    ∧ errors r
      = failed (get_units (conduit [unit_mymodule; unit_clash]) [TYPE_PUPPET_MODULE])
          (extraction "/srv/puppet"
             (get_units (conduit [unit_mymodule; unit_clash]) [TYPE_PUPPET_MODULE])
             (world (cleared [unit_mymodule; unit_clash] "/srv/puppet"))).1
    ∧ length (errors r)
      = io_failures
          (extraction "/srv/puppet"
             (get_units (conduit [unit_mymodule; unit_clash]) [TYPE_PUPPET_MODULE])
             (world (cleared [unit_mymodule; unit_clash] "/srv/puppet"))).1
    ∧ length (success_unit_keys r)
      = length (get_units (conduit [unit_mymodule; unit_clash]) [TYPE_PUPPET_MODULE])
        - io_failures
            (extraction "/srv/puppet"
               (get_units (conduit [unit_mymodule; unit_clash]) [TYPE_PUPPET_MODULE])
               (world (cleared [unit_mymodule; unit_clash] "/srv/puppet"))).1
    ∧ success_unit_keys r ++ (errors r).*1
      ≡ₚ unit_key <$> get_units (conduit [unit_mymodule; unit_clash]) [TYPE_PUPPET_MODULE]
    ∧ (report_has_errors r = true ↔
       (0 < io_failures
              (extraction "/srv/puppet"
                 (get_units (conduit [unit_mymodule; unit_clash]) [TYPE_PUPPET_MODULE])
                 (world (cleared [unit_mymodule; unit_clash] "/srv/puppet"))).1)%nat)
    ∧ (success_flag report = false ↔
       (0 < io_failures
              (extraction "/srv/puppet"
                 (get_units (conduit [unit_mymodule; unit_clash]) [TYPE_PUPPET_MODULE])
                 (world (cleared [unit_mymodule; unit_clash] "/srv/puppet"))).1)%nat).
Proof.
  refine (partial_failures_are_reported_per_unit
            CONFIG_INSTALL_PATH TYPE_PUPPET_MODULE installer repo
            (conduit [unit_mymodule; unit_clash]) (config "/srv/puppet")
            "/srv/puppet" (boot disk)
            (checked [unit_mymodule; unit_clash] "/srv/puppet")
            (cleared [unit_mymodule; unit_clash] "/srv/puppet") _ _ _ _ _ _ _).
  - run_result.
  - discriminate.
  - run_result.
  - refine (run_to_its_state
              (_check_for_unsafe_archive_paths installer
                 [unit_mymodule; unit_clash] "/srv/puppet") (boot disk) (Ok ()) _).
    run_result.
  - has_errors_is false.
  - refine (run_to_its_state
              (_clear_destination_directory "/srv/puppet")
              (checked [unit_mymodule; unit_clash] "/srv/puppet") (Ok ()) _).
    run_result.
  - vm_compute. repeat constructor.
Defined.

(** In that run one extraction of the two fails. *)
Example one_failure_of_two :
  io_failures
    (extraction "/srv/puppet" [unit_mymodule; unit_clash]
       (world (cleared [unit_mymodule; unit_clash] "/srv/puppet"))).1 = 1.
Proof. vm_compute. reflexivity. Qed.

Lemma clearing_failure_stops_before_extraction_witness :
  publish_repo CONFIG_INSTALL_PATH TYPE_PUPPET_MODULE installer repo
    (conduit [unit_mymodule]) (config "/nowhere") (boot disk)
    = (Ok (build_failure_report
             ("failed to clear destination directory: "
              +:+ "[Errno 2] No such file or directory: '/nowhere'")
             (detail_report installer)),
       cleared [unit_mymodule] "/nowhere")
  ∧ ∃ t, trace (cleared [unit_mymodule] "/nowhere") = trace (boot disk) ++ t
       ∧ forallb (λ c, negb (is_extractall c)) t = true
       ∧ opened t = storage_path <$> get_units (conduit [unit_mymodule]) [TYPE_PUPPET_MODULE].
Proof.
  refine (clearing_failure_stops_before_extraction
            CONFIG_INSTALL_PATH TYPE_PUPPET_MODULE installer repo
            (conduit [unit_mymodule]) (config "/nowhere")
            "/nowhere" (boot disk) (checked [unit_mymodule] "/nowhere")
            "[Errno 2] No such file or directory: '/nowhere'"
            (cleared [unit_mymodule] "/nowhere") _ _ _ _ _).
  - run_result.
  - discriminate.
  - refine (run_to_its_state
              (_check_for_unsafe_archive_paths installer [unit_mymodule] "/nowhere")
              (boot disk) (Ok ()) _).
    run_result.
  - has_errors_is false.
  - refine (run_to_its_state
              (_clear_destination_directory "/nowhere")
              (checked [unit_mymodule] "/nowhere")
              (Raise (EnvironmentError
                        "[Errno 2] No such file or directory: '/nowhere'")) _).
    run_result.
Defined.


(** What the check phase finds on the example disk. *)
Example check_errors_on_disk :
  check_errors "/srv/puppet" disk [unit_evil; unit_missing; unit_mymodule]
  = [("evil", ERROR_MESSAGE_PATH);
     ("missing", "[Errno 2] No such file or directory: '/var/missing.tar'")].
Proof. vm_compute. reflexivity. Qed.

Lemma report_invariant_throughout_install_witness :
  ∃ res t w',
    publish_repo CONFIG_INSTALL_PATH TYPE_PUPPET_MODULE installer repo
      (conduit [unit_mymodule; unit_clash]) (config "/srv/puppet") (boot disk)
      = (res, after (detail_report installer) (boot disk) t w')
    ∧ ∀ t', t' `prefix_of` t →
        heap (after (detail_report installer) (boot disk) t' w')
          !! detail_report installer
          = Some (replay t' empty_report)
        ∧ report_invariant (replay t' empty_report).
Proof.
  refine (report_invariant_throughout_install
            CONFIG_INSTALL_PATH TYPE_PUPPET_MODULE installer repo
            (conduit [unit_mymodule; unit_clash]) (config "/srv/puppet")
            (boot disk) _ _).
  - run_result.
  - apply (bool_decide_unpack _). vm_compute. exact I.
Defined.

Lemma clearing_deletes_exactly_the_subdirectories_witness :
  ∃ σ' : @state string tree,
    _clear_destination_directory "/srv/puppet" (boot disk) = (Ok (), σ')
    ∧ heap σ' = heap (boot disk)
    ∧ (∀ c rest,
         world (boot disk) !! (resolve "/srv/puppet" ++ [c]) = Some Directory →
         world σ' !! (resolve "/srv/puppet" ++ c :: rest) = None)
    ∧ (∀ c v,
         world (boot disk) !! (resolve "/srv/puppet" ++ [c]) = Some v →
         v ≠ Directory →
         world σ' !! (resolve "/srv/puppet" ++ [c]) = Some v)
    ∧ (∀ p,
         ¬ below_subdirectory (resolve "/srv/puppet") (world (boot disk)) p →
         world σ' !! p = world (boot disk) !! p).
Proof.
  refine (clearing_deletes_exactly_the_subdirectories "/srv/puppet" (boot disk) _ _).
  - exact disk_well_formed.
  - run_result.
Defined.

Lemma missing_install_path_fails_at_once_witness :
  ∃ report,
    publish_repo CONFIG_INSTALL_PATH TYPE_PUPPET_MODULE installer repo
      (conduit [unit_mymodule]) ∅ (boot disk) = (Ok report, boot disk)
    ∧ success_flag report = false
    ∧ summary report = "install path not provided"
    ∧ heap (boot disk) !! details report = Some empty_report.
Proof.
  refine (missing_install_path_fails_at_once
            CONFIG_INSTALL_PATH TYPE_PUPPET_MODULE installer repo
            (conduit [unit_mymodule]) ∅ (boot disk) _ _).
  - left. run_result.
  - run_result.
Defined.

Lemma empty_unit_list_clears_and_succeeds_witness :
  ∃ report σ',
    publish_repo CONFIG_INSTALL_PATH TYPE_PUPPET_MODULE installer repo
      (conduit []) (config "/srv/puppet") (boot disk) = (Ok report, σ')
    ∧ success_flag report = true
    ∧ summary report = "success"
    ∧ heap σ' !! details report = Some empty_report
    ∧ (∀ c rest,
         world (boot disk) !! (resolve "/srv/puppet" ++ [c]) = Some Directory →
         world σ' !! (resolve "/srv/puppet" ++ c :: rest) = None)
    ∧ (∀ p,
         ¬ below_subdirectory (resolve "/srv/puppet") (world (boot disk)) p →
         world σ' !! p = world (boot disk) !! p).
Proof.
  refine (empty_unit_list_clears_and_succeeds
            CONFIG_INSTALL_PATH TYPE_PUPPET_MODULE installer repo
            (conduit []) (config "/srv/puppet") "/srv/puppet" (boot disk)
            _ _ _ _ _ _).
  - run_result.
  - discriminate.
  - reflexivity.
  - run_result.
  - exact disk_well_formed.
  - run_result.
Defined.


(** The report the first run returned is the very dict the second run
    appends to: read after the second run, it lists the unit twice too. *)
Example first_report_is_an_alias :
  heap (published_again [unit_mymodule] "/srv/puppet")
    !! details (build_success_report "success" 1%positive)
  = Some {| success_unit_keys := ["mymodule"; "mymodule"]; errors := [] |}.
Proof. run_result. Qed.


End Witnesses.

(** ** Every run of [publish_repo] *)

Section EveryRun.

Context {K : Type} {World : Type} `{!OS World}.
Variables CONFIG_INSTALL_PATH TYPE_PUPPET_MODULE : string.
Implicit Types (σ : @state K World) (t : list (@call K)) (w : World) (l : loc).
Implicit Types (self : PuppetModuleInstallDistributor) (repo : Repository).
Implicit Types (publish_conduit : RepoPublishConduit K) (config : gmap string string).
Implicit Types (u : AssociatedUnit K) (units : list (AssociatedUnit K)).

Local Abbreviation publish := (publish_repo CONFIG_INSTALL_PATH TYPE_PUPPET_MODULE).
Local Abbreviation units_of publish_conduit := (get_units publish_conduit [TYPE_PUPPET_MODULE]).
Local Abbreviation outcome := (publish_outcome CONFIG_INSTALL_PATH).

Lemma errs_after_no_error self σ t w :
  is_Some (heap σ !! detail_report self) →
  errs self (after (detail_report self) σ t w) = false →
  errs self σ = false ∧ errors_in t = [].
Proof.
  intros [r0 Hr0] Herrs. rewrite (errs_after _ _ _ _ r0) in Herrs by done.
  apply report_has_errors_false in Herrs. simpl in Herrs.
  apply app_eq_nil in Herrs as [Hr He]. split; [|done].
  unfold errs. rewrite Hr0. simpl. by apply report_has_errors_false.
Qed.

(** X1.  The state machine of [publish_repo]: a run on a distributor
    whose report is in the heap ends in one of seven ways (the install
    path is not provided; the check phase raises; the check phase leaves
    an error; clearing fails with an I/O error; clearing raises
    something else; the publishing loop raises; the loop runs to its
    end), each with the state it leaves. *)
Theorem publish_repo_ends_in_one_of_seven_ways self repo publish_conduit config σ :
  is_Some (heap σ !! detail_report self) →
  outcome self publish_conduit config σ
    (publish self repo publish_conduit config σ).1
    (publish self repo publish_conduit config σ).2.
Proof.
  intros Hsome. set (l := detail_report self) in *.
  set (units := units_of publish_conduit).
  destruct (config !! CONFIG_INSTALL_PATH) as [destination|] eqn:Hcfg; cycle 1.
  { rewrite phase_not_provided by auto. simpl. constructor. auto. }
  destruct (decide (destination = "")) as [->|Hne].
  { rewrite phase_not_provided by auto. simpl. constructor. auto. }
  destruct (check_runs_any self destination units σ)
    as (res1 & t1 & Hcheck & Hs1 & Hi1 & _).
  unfold runs in Hcheck. fold l in Hcheck.
  destruct res1 as [[]|e]; cycle 1.
  { rewrite (phase_check_raises _ _ _ _ _ _ _ _ _ _ Hcfg Hne Hcheck). simpl.
    by eapply ends_check_raised. }
  destruct (errs self (after l σ t1 (world σ))) eqn:Herrs.
  { rewrite (phase_check_fails _ _ _ _ _ _ _ _ _ Hcfg Hne Hcheck Herrs). simpl.
    by eapply ends_check_failed. }
  destruct (errs_after_no_error self σ t1 (world σ) Hsome Herrs) as [Herrs0 He1].
  destruct (clear_runs l destination (after l σ t1 (world σ)))
    as (t2 & Hclear & Hs2 & He2 & Hc2 & _).
  unfold runs in Hclear. rewrite after_after in Hclear.
  change (world (after l σ t1 (world σ))) with (world σ) in Hclear.
  assert (Hbefore : forallb before_publishing (t1 ++ t2) = true).
  { rewrite forallb_app. apply andb_true_iff. split.
    - revert Hi1. apply forallb_impl. intros c Hc. unfold before_publishing.
      by rewrite Hc.
    - revert Hc2. apply forallb_impl. intros c Hc. unfold before_publishing.
      rewrite Hc. apply orb_true_r. }
  destruct (clear_world destination (world σ)) as [[[]|e] w1] eqn:Hcw;
    cbn [fst snd] in Hclear; cycle 1.
  { rewrite (phase_clear_raises _ _ _ _ _ _ _ _ _ _ _ Hcfg Hne Hcheck Herrs Hclear).
    destruct e as [msg|msg]; simpl.
    - eapply ends_clear_failed; eauto.
      + by rewrite successes_in_app, Hs1, Hs2.
      + by rewrite errors_in_app, He1, He2.
    - eapply ends_clear_raised; eauto.
      + by rewrite successes_in_app, Hs1, Hs2.
      + by rewrite errors_in_app, He1, He2. }
  destruct (publish_runs_any self destination units (after l σ (t1 ++ t2) w1))
    as (res3 & t3 & w3 & Hpub & _).
  unfold runs in Hpub. fold l in Hpub. rewrite after_after in Hpub.
  rewrite (phase_publish _ _ _ _ _ _ _ _ _ _ _ _ Hcfg Hne Hcheck Herrs Hclear Hpub).
  destruct res3 as [[]|e]; simpl.
  - by eapply ends_published.
  - by eapply ends_publish_raised.
Qed.

(** The same, for a run given by its equation. *)
Lemma publish_repo_outcome self repo publish_conduit config σ res σ' :
  is_Some (heap σ !! detail_report self) →
  publish self repo publish_conduit config σ = (res, σ') →
  outcome self publish_conduit config σ res σ'.
Proof.
  intros Hsome Hrun.
  pose proof (publish_repo_ends_in_one_of_seven_ways
                self repo publish_conduit config σ Hsome) as Hout.
  by rewrite Hrun in Hout.
Qed.

(** X2.  An error in the detail report stays in the way: once the
    report of a distributor holds an error, every later [publish_repo]
    on it with a provided destination stops after the check phase.  It
    returns the report ['failed'] (or raises what the check phase
    raised), the world is as it was, and nothing was listed, removed or
    extracted, whatever the units are. *)
Theorem recorded_error_blocks_later_runs
    self repo publish_conduit config destination σ res σ' :
  config !! CONFIG_INSTALL_PATH = Some destination → destination ≠ "" →
  errs self σ = true →
  publish self repo publish_conduit config σ = (res, σ') →
  world σ' = world σ
  ∧ (res = Ok (build_failure_report "failed" (detail_report self))
     ∨ ∃ e, res = Raise e)
  ∧ ∃ t, trace σ' = trace σ ++ t ∧ forallb is_inspection t = true.
Proof.
  intros Hcfg Hne Herrs Hrun.
  assert (Hsome : is_Some (heap σ !! detail_report self)).
  { unfold errs in Herrs. by destruct (heap σ !! detail_report self). }
  apply publish_repo_outcome in Hrun; [|done].
  destruct Hrun as [[Hnp|Hnp]
    | d t e _ _ Hi _
    | d t _ _ Hi _ _
    | d t msg w1 _ _ _ _ _ Herrs0 _
    | d t msg w1 _ _ _ _ _ Herrs0 _
    | d t e w1 w2 _ _ Herrs0 _
    | d t w1 w2 _ _ Herrs0 _]; try congruence.
  - split_and!; [done|eauto|]. by exists t.
  - split_and!; [done|eauto|]. by exists t.
Qed.

Lemma cleared_message_is_not_failed msg :
  "failed to clear destination directory: " +:+ msg ≠ "failed".
Proof. by destruct msg. Qed.

Lemma cleared_message_is_not_success msg :
  "failed to clear destination directory: " +:+ msg ≠ "success".
Proof. by destruct msg. Qed.

(** X3.  The report [publish_repo] returns is consistent: its details
    are the detail report of the distributor, it is a success exactly
    when its summary is ['success'], a success comes with a detail
    report without errors, and the summary ['failed'] comes with a
    detail report that has errors. *)
Theorem returned_report_agrees_with_detail
    self repo publish_conduit config σ report σ' :
  is_Some (heap σ !! detail_report self) →
  publish self repo publish_conduit config σ = (Ok report, σ') →
  details report = detail_report self
  ∧ (success_flag report = true ↔ summary report = "success")
  ∧ (success_flag report = true → errs self σ' = false)
  ∧ (summary report = "failed" → errs self σ' = true).
Proof.
  intros Hsome Hrun.
  apply publish_repo_outcome in Hrun; [|done].
  remember (Ok report) as res eqn:Hres.
  destruct Hrun as [Hnp
    | d t e _ _ _ _
    | d t _ _ _ _ Herrs
    | d t msg w1 _ _ _ _ _ _ _
    | d t msg w1 _ _ _ _ _ _ _
    | d t e w1 w2 _ _ _ _
    | d t w1 w2 _ _ _ _]; try done; injection Hres as <-;
    try destruct (errs self (after (detail_report self) σ t w2)) eqn:Herrs2;
    simpl; repeat split; try done;
    try (intros Hs; by apply cleared_message_is_not_success in Hs);
    try (intros Hs; by apply cleared_message_is_not_failed in Hs).
Qed.

(** X4.  [publish_repo] only ever appends to the detail report of its
    own distributor: in every outcome the sequences the report held are
    prefixes of the ones it holds afterwards, and every other report in
    the heap is as it was. *)
Theorem publish_repo_only_appends_to_its_report
    self repo publish_conduit config σ res σ' :
  is_Some (heap σ !! detail_report self) →
  publish self repo publish_conduit config σ = (res, σ') →
  (∀ l, l ≠ detail_report self → heap σ' !! l = heap σ !! l)
  ∧ ∃ r r',
      heap σ !! detail_report self = Some r
      ∧ heap σ' !! detail_report self = Some r'
      ∧ success_unit_keys r `prefix_of` success_unit_keys r'
      ∧ errors r `prefix_of` errors r'.
Proof.
  intros [r Hr] Hrun.
  destruct (publish_repo_runs CONFIG_INSTALL_PATH TYPE_PUPPET_MODULE
              self repo publish_conduit config σ)
    as (res' & t & w' & Hrun' & _); [by rewrite Hr|].
  unfold runs in Hrun'. rewrite Hrun in Hrun'. injection Hrun' as _ ->.
  split.
  - intros l Hl. by apply heap_after_ne.
  - exists r, (replay t r). rewrite heap_after, Hr. split_and!; try done.
    + by exists (successes_in t).
    + by exists (errors_in t).
Qed.

Lemma for_each_app {A} (xs ys : list A) (body : A → M unit) σ :
  for_each (xs ++ ys) body σ
  = match for_each xs body σ with
    | (Ok _, σ1) => for_each ys body σ1
    | (Raise e, σ1) => (Raise e, σ1)
    end.
Proof.
  revert σ. induction xs as [|x xs IH]; intros σ; [done|].
  simpl. unfold mbind, M_bind. destruct (body x σ) as [[[]|e] σ1]; [|done].
  apply IH.
Qed.

(** X5.  An exception that is neither [OSError] nor [IOError] is not
    caught.  When the check of a unit raises one, after units whose
    checks went through, [publish_repo] raises it: the archives of the
    units up to that one were opened and those after it never were, the
    world is as it was and nothing was listed, removed or extracted. *)
Theorem other_exception_leaves_publish_repo
    self repo publish_conduit config destination σ units1 u units2 e :
  config !! CONFIG_INSTALL_PATH = Some destination → destination ≠ "" →
  units_of publish_conduit = units1 ++ u :: units2 →
  Forall (λ u, is_ok (check_unit destination (world σ) u) = true) units1 →
  check_unit destination (world σ) u = Raise e →
  ∃ t,
    publish self repo publish_conduit config σ
      = (Raise e, after (detail_report self) σ t (world σ))
    ∧ opened t = storage_path <$> (units1 ++ [u])
    ∧ forallb is_inspection t = true.
Proof.
  intros Hcfg Hne Hunits Hok Hu. set (l := detail_report self).
  destruct (check_runs_ok self destination units1 σ Hok)
    as (t1 & Hrun1 & _ & _ & Hi1 & Ho1).
  destruct (check_archive_runs self destination u (after l σ t1 (world σ)))
    as (t2 & Hrun2 & _ & _ & Hi2 & Ho2).
  simpl in Hrun2. rewrite Hu in Hrun2. simpl in Hrun2.
  unfold runs in Hrun1, Hrun2. fold l in Hrun1, Hrun2.
  unfold _check_for_unsafe_archive_paths in Hrun1.
  rewrite after_after in Hrun2.
  exists (t1 ++ t2). split_and!.
  - eapply phase_check_raises; [done..|].
    rewrite Hunits. unfold _check_for_unsafe_archive_paths.
    rewrite for_each_app, Hrun1. simpl. unfold mbind, M_bind.
    by rewrite Hrun2.
  - by rewrite opened_app, Ho1, Ho2, fmap_app.
  - by rewrite forallb_app, Hi1, Hi2.
Qed.

(** X6.  [__init__] gives every distributor a detail report of its
    own: a new, empty dict at a place the heap did not use, with the
    world, the log and every other report as they were; and no
    [publish_repo] of the new distributor changes a report that was
    there before. *)
Theorem new_distributor_has_its_own_report σ :
  ∃ self' σ1,
    PuppetModuleInstallDistributor_init σ = (Ok self', σ1)
    ∧ heap σ !! detail_report self' = None
    ∧ newly_created self' σ1
    ∧ world σ1 = world σ ∧ trace σ1 = trace σ
    ∧ (∀ l, is_Some (heap σ !! l) → heap σ1 !! l = heap σ !! l)
    ∧ (∀ repo publish_conduit config res σ2 l,
         is_Some (heap σ !! l) →
         publish self' repo publish_conduit config σ1 = (res, σ2) →
         heap σ2 !! l = heap σ !! l).
Proof.
  set (l' := fresh (dom (heap σ))).
  assert (Hfresh : heap σ !! l' = None).
  { apply not_elem_of_dom. apply is_fresh. }
  assert (Hother : ∀ l, is_Some (heap σ !! l) → l ≠ l').
  { intros l [r Hl] ->. congruence. }
  set (σ1 := {| heap := <[l' := empty_report]> (heap σ);
                world := world σ; trace := trace σ |}).
  assert (Hnew : heap σ1 !! l' = Some empty_report) by apply lookup_insert_eq.
  assert (Hkept : ∀ l, is_Some (heap σ !! l) → heap σ1 !! l = heap σ !! l).
  { intros l Hl. apply lookup_insert_ne. intros <-. by apply (Hother l'). }
  exists {| detail_report := l' |}, σ1. split_and!; try done.
  intros repo publish_conduit config res σ2 l Hl Hrun.
  destruct (publish_repo_only_appends_to_its_report
              {| detail_report := l' |} repo publish_conduit config σ1 res σ2)
    as [Hframe _]; [by exists empty_report|done|].
  rewrite Hframe; [by apply Hkept|]. by apply Hother.
Qed.

End EveryRun.

(** ** [validate_config] and [publish_repo] *)

Section Validation.

Context {K : Type} {World : Type} `{!OS World} `{!Access World}.
Variables CONFIG_INSTALL_PATH TYPE_PUPPET_MODULE : string.
Implicit Types (σ : @state K World) (w : World).

Local Abbreviation publish := (publish_repo CONFIG_INSTALL_PATH TYPE_PUPPET_MODULE).
Local Abbreviation validate := (validate_config CONFIG_INSTALL_PATH).

Lemma strings_of_lookup (config : gmap string config_value) (key path : string) :
  config !! key = Some (Str path) → strings_of config !! key = Some path.
Proof. intros Hc. unfold strings_of. by rewrite lookup_omap, Hc. Qed.

Lemma isabs_nonempty (path : string) : PyPath.isabs path = true → path ≠ "".
Proof. by intros Habs ->. Qed.

Lemma validate_config_accepted repo (config : gmap string config_value)
    related_repos w (path : string) :
  (validate repo config related_repos w).1 = true →
  config !! CONFIG_INSTALL_PATH = Some (Str path) →
  PyPath.isabs path = true
  ∧ sys_isdir path w = true
  ∧ sys_access path (Nat.lor (Nat.lor R_OK W_OK) X_OK) w = true.
Proof.
  unfold validate_config. intros Hv Hc. rewrite Hc in Hv.
  destruct (PyPath.isabs path); [|done].
  destruct (sys_isdir path w); [|done].
  by destruct (sys_access path _ w).
Qed.

(** X7.  A configuration that [validate_config] accepts and that holds
    an install path gets [publish_repo] past its first guard: the path
    is absolute, hence not empty, it is a directory the process may
    read, write and search, the answer of [validate_config] carries no
    message, and no run of [publish_repo] with that configuration
    returns ['install path not provided']. *)
Theorem validated_path_is_provided repo (config : gmap string config_value)
    related_repos w (path : string) :
  (validate repo config related_repos w).1 = true →
  config !! CONFIG_INSTALL_PATH = Some (Str path) →
  (validate repo config related_repos w).2 = None
  ∧ PyPath.isabs path = true
  ∧ sys_isdir path w = true
  ∧ sys_access path (Nat.lor (Nat.lor R_OK W_OK) X_OK) w = true
  ∧ ∀ self repo' (publish_conduit : RepoPublishConduit K) σ report σ',
      is_Some (heap σ !! detail_report self) →
      publish self repo' publish_conduit (strings_of config) σ = (Ok report, σ') →
      summary report ≠ "install path not provided".
Proof.
  intros Hv Hc.
  destruct (validate_config_accepted _ _ _ _ _ Hv Hc) as (Habs & Hdir & Hacc).
  split_and!; try done.
  - unfold validate_config in *. rewrite Hc in *.
    by rewrite Habs, Hdir, Hacc.
  - intros self repo' publish_conduit σ report σ' Hsome Hrun.
    apply publish_repo_outcome in Hrun; [|done].
    pose proof (strings_of_lookup _ _ _ Hc) as Hs.
    pose proof (isabs_nonempty _ Habs) as Hne.
    remember (Ok report) as res eqn:Hres.
    destruct Hrun as [[Hnp|Hnp]
      | d t e _ _ _ _
      | d t _ _ _ _ _
      | d t msg w1 _ _ _ _ _ _ _
      | d t msg w1 _ _ _ _ _ _ _
      | d t e w1 w2 _ _ _ _
      | d t w1 w2 _ _ _ _]; try congruence; injection Hres as <-; simpl;
      try done; try (by destruct msg); by destruct (errs self _).
Qed.

End Validation.

(** ** What the path check buys: nothing is written outside the destination *)

Module Containment.

Import MemFS MemFSFacts MemFSExtraction.

(** *** Normalized paths, by their components *)

Lemma normpath_step_absolute (n : nat) (acc : list string) (comp : string) :
  n ≠ 0 → Py.normpath_step n acc comp = Py.normpath_step 1 acc comp.
Proof. intros Hn. unfold Py.normpath_step. by destruct n. Qed.

Lemma normpath_comps_absolute (n : nat) (path : string) :
  n ≠ 0 → Py.normpath_comps n path = resolve path.
Proof.
  intros Hn. unfold resolve, Py.normpath_comps.
  generalize (@nil string). induction (Py.split "/" path) as [|c cs IH];
    intros acc; [done|].
  simpl. by rewrite normpath_step_absolute, IH.
Qed.

Lemma initial_slashes_absolute (path : string) :
  PyPath.isabs path = true → Py.initial_slashes path ≠ 0.
Proof.
  unfold PyPath.isabs, Py.initial_slashes. intros ->.
  by destruct (_ && _).
Qed.

Lemma prefix_inv (a s : string) :
  String.prefix a s = true → ∃ rest, s = a +:+ rest.
Proof.
  revert s. induction a as [|c a IH]; intros s.
  - intros _. by exists s.
  - destruct s as [|c' s]; [done|]. rewrite string_prefix_cons.
    destruct (Ascii.ascii_dec c c') as [<-|]; [|done].
    intros [rest ->]%IH. by exists rest.
Qed.

Lemma prefix_append (a rest : string) : String.prefix a (a +:+ rest) = true.
Proof.
  induction a as [|c a IH]; [by destruct rest|].
  rewrite append_cons, string_prefix_cons.
  by destruct (Ascii.ascii_dec c c).
Qed.

Lemma split_str_join (comps : list string) :
  Forall (λ c, valid_name c = true) comps → comps ≠ [] →
  Py.split "/" (Py.str_join "/" comps) = comps.
Proof.
  induction comps as [|c comps IH]; [done|].
  intros [Hc Hcomps]%Forall_cons _.
  apply valid_name_inv in Hc as (_ & _ & _ & Hsplit).
  destruct comps as [|c' comps]; [done|].
  change (Py.str_join "/" (c :: c' :: comps))
    with (c +:+ "/" +:+ Py.str_join "/" (c' :: comps)).
  by rewrite split_append_sep, Hsplit, IH.
Qed.

Lemma split_slashes (n : nat) (s : string) :
  Py.split "/" (Py.slashes n +:+ s) = replicate n "" ++ Py.split "/" s.
Proof. induction n as [|n IH]; [done|]. simpl. by rewrite <- IH. Qed.

Lemma fold_drops_empty (n : nat) (l acc : list string) :
  fold_left (Py.normpath_step 1) (replicate n "" ++ l) acc
  = fold_left (Py.normpath_step 1) l acc.
Proof. induction n as [|n IH]; [done|]. simpl. apply IH. Qed.

Lemma fold_valid (l acc : list string) :
  Forall (λ c, valid_name c = true) l →
  fold_left (Py.normpath_step 1) l acc = acc ++ l.
Proof.
  revert acc. induction l as [|c l IH]; intros acc Hl.
  - by rewrite app_nil_r.
  - apply Forall_cons in Hl as [Hc Hl]. simpl.
    rewrite normpath_step_valid by done. rewrite IH by done.
    by rewrite <- app_assoc.
Qed.

(** Names and empty components only make a path longer. *)
Lemma fold_grows (l acc : list string) :
  Forall (λ c, c = "" ∨ valid_name c = true) l →
  acc `prefix_of` fold_left (Py.normpath_step 1) l acc.
Proof.
  revert acc. induction l as [|c l IH]; intros acc Hl; [done|].
  apply Forall_cons in Hl as [Hc Hl]. simpl.
  destruct Hc as [->|Hc].
  - by apply IH.
  - rewrite normpath_step_valid by done.
    etrans; [|by apply IH]. by apply prefix_app_r.
Qed.

(** [posixpath.normpath] of an absolute path: its slashes, then its
    components joined. *)
Lemma normpath_absolute (path : string) :
  PyPath.isabs path = true →
  Py.normpath path
  = Py.slashes (Py.initial_slashes path) +:+ Py.str_join "/" (resolve path).
Proof.
  intros Habs. pose proof (initial_slashes_absolute path Habs) as Hn.
  unfold Py.normpath. destruct path as [|c path]; [done|].
  change (String.eqb (String c path) "") with false. cbn iota.
  rewrite normpath_comps_absolute by done.
  destruct (Py.initial_slashes (String c path)) as [|n]; [done|].
  reflexivity.
Qed.

Lemma split_normpath_absolute (path : string) :
  PyPath.isabs path = true →
  ∃ n, Py.split "/" (Py.normpath path)
       = replicate n "" ++ match resolve path with [] => [""] | comps => comps end.
Proof.
  intros Habs. rewrite normpath_absolute by done.
  exists (Py.initial_slashes path). rewrite split_slashes. f_equal.
  pose proof (resolve_valid path) as Hvalid.
  destruct (resolve path) as [|c comps] eqn:Hr; [done|].
  by apply split_str_join.
Qed.

(** The separator at the end of the destination is the end of a path
    that leads where the destination leads. *)
Lemma with_trailing_separator_split (destination : string) :
  ∃ b, with_trailing_separator destination = b +:+ "/"
       ∧ resolve b = resolve destination.
Proof.
  unfold with_trailing_separator.
  destruct (Py.endswith destination "/") eqn:He.
  - apply endswith_inv in He as [b ->]. exists b. split; [done|].
    unfold resolve.
    rewrite <- (append_nil_r (b +:+ "/")), append_assoc.
    by rewrite normpath_comps_app.
  - by exists destination.
Qed.

Lemma join_absolute (destination n : string) :
  PyPath.isabs destination = true → PyPath.isabs (Py.join destination n) = true.
Proof.
  unfold PyPath.isabs, Py.join, Py.startswith. intros Habs.
  destruct (String.prefix "/" n) eqn:Hn; [done|].
  apply prefix_inv in Habs as [rest ->].
  destruct (_ || _); rewrite !append_assoc; apply prefix_append.
Qed.

(** A name that does not escape an absolute destination, in the sense
    of the check, has its target at or below the destination. *)
Lemma kept_name_leads_inside (destination n : string) :
  PyPath.isabs destination = true →
  escapes destination n = false →
  resolve destination `prefix_of` resolve (Py.join destination n).
Proof.
  intros Habs Hsafe. apply negb_false_iff in Hsafe.
  set (j := Py.join destination n) in *.
  assert (Hj : PyPath.isabs j = true) by by apply join_absolute.
  apply prefix_inv in Hsafe as [rest Hrest].
  destruct (with_trailing_separator_split destination) as (b & Hb & Hres).
  rewrite Hb, append_assoc in Hrest.
  destruct (split_normpath_absolute j Hj) as [k Hsplit].
  rewrite Hrest, split_append_sep in Hsplit.
  (* the components after the destination are empty or names *)
  assert (Hrestok : Forall (λ c, c = "" ∨ valid_name c = true) (Py.split "/" rest)).
  { apply Forall_forall. intros c Hc.
    assert (Hin : c ∈ Py.split "/" b ++ Py.split "/" rest)
      by (apply elem_of_app; by right).
    rewrite Hsplit in Hin. apply elem_of_app in Hin as [Hin|Hin].
    - left. by apply elem_of_replicate in Hin as [? _].
    - pose proof (resolve_valid j) as Hvalid.
      destruct (resolve j) as [|c' comps].
      + left. by apply list_elem_of_singleton in Hin.
      + right. rewrite Forall_forall in Hvalid. by apply Hvalid. }
  (* both sides of the equation lead to the same place *)
  assert (Hleft : fold_left (Py.normpath_step 1)
                    (Py.split "/" b ++ Py.split "/" rest) []
                  = fold_left (Py.normpath_step 1) (Py.split "/" rest)
                      (resolve destination)).
  { by rewrite fold_left_app, <- Hres. }
  assert (Hright : fold_left (Py.normpath_step 1)
                     (replicate k "" ++
                      match resolve j with [] => [""] | comps => comps end) []
                   = resolve j).
  { rewrite fold_drops_empty. pose proof (resolve_valid j) as Hvalid.
    destruct (resolve j) as [|c' comps]; [done|]. by rewrite fold_valid. }
  rewrite Hsplit, Hright in Hleft. rewrite Hleft.
  by apply fold_grows.
Qed.

Lemma safe_names_lead_inside (destination : string) (names : list string) (n : string) :
  PyPath.isabs destination = true →
  paths_are_safe destination names = true →
  n ∈ names →
  resolve destination `prefix_of` resolve (Py.join destination n).
Proof.
  intros Habs Hsafe Hn.
  rewrite paths_are_safe_IsSafe in Hsafe by (by apply isabs_nonempty).
  unfold IsSafe in Hsafe. rewrite forallb_forall in Hsafe.
  specialize (Hsafe n (proj1 (list_elem_of_In _ _) Hn)).
  apply negb_true_iff in Hsafe. by apply kept_name_leads_inside.
Qed.

(** X8.  A name that passes the check of [_archive_paths_are_safe] for
    an absolute destination leads into the destination: the components
    of the normalized join of the destination and the name begin with
    the components of the destination. *)
Theorem safe_name_leads_into_destination (destination : string) (names : list string) :
  PyPath.isabs destination = true →
  paths_are_safe destination names = true →
  ∀ n, n ∈ names →
    Py.normpath_comps 1 destination
      `prefix_of` Py.normpath_comps 1 (Py.join destination n).
Proof.
  intros Habs Hsafe n Hn.
  by apply (safe_names_lead_inside destination names n).
Qed.

(** *** An entry that names the destination *)

Lemma fold_plain (l acc : list string) :
  Forall (λ c, c = "" ∨ valid_name c = true) l →
  fold_left (Py.normpath_step 1) l acc
  = acc ++ fold_left (Py.normpath_step 1) l [].
Proof.
  revert acc. induction l as [|c l IH]; intros acc Hl.
  - by rewrite app_nil_r.
  - apply Forall_cons in Hl as [[->|Hc] Hl]; simpl.
    + by apply IH.
    + rewrite !normpath_step_valid by done.
      rewrite (IH (acc ++ [c])), (IH ([] ++ [c])) by done.
      by rewrite <- app_assoc.
Qed.

Lemma fold_nil_all_empty (l : list string) :
  Forall (λ c, c = "" ∨ valid_name c = true) l →
  fold_left (Py.normpath_step 1) l [] = [] →
  Forall (λ c, c = "") l.
Proof.
  induction l as [|c l IH]; [done|].
  intros [[->|Hc] Hl]%Forall_cons; simpl.
  - intros Hnil. constructor; [done|by apply IH].
  - rewrite normpath_step_valid, fold_plain by done.
    by intros [? _]%app_eq_nil.
Qed.

(** A name whose target is the destination itself escapes it, in the
    sense of the check: the normalized join is the destination without
    a separator at its end. *)
Lemma name_of_destination_escapes (destination n : string) :
  PyPath.isabs destination = true →
  resolve destination ≠ [] →
  resolve (Py.join destination n) = resolve destination →
  escapes destination n = true.
Proof.
  intros Habs Hroot Hsame.
  destruct (escapes destination n) eqn:Hsafe; [done|exfalso].
  apply negb_false_iff in Hsafe.
  set (j := Py.join destination n) in *.
  assert (Hj : PyPath.isabs j = true) by by apply join_absolute.
  apply prefix_inv in Hsafe as [rest Hrest].
  destruct (with_trailing_separator_split destination) as (b & Hb & Hres).
  rewrite Hb, append_assoc in Hrest.
  destruct (split_normpath_absolute j Hj) as [k Hsplit].
  rewrite Hrest, split_append_sep, Hsame in Hsplit.
  pose proof (resolve_valid destination) as Hvalid.
  destruct (resolve destination) as [|c comps] eqn:Hd; [done|].
  set (R := c :: comps) in *.
  assert (Hall : Forall (λ c, c = "" ∨ valid_name c = true)
                   (Py.split "/" b ++ Py.split "/" rest)).
  { rewrite Hsplit. apply Forall_app. split.
    - apply Forall_forall. intros x Hx. left.
      by apply elem_of_replicate in Hx as [? _].
    - eapply Forall_impl; [exact Hvalid|]. intros x Hx. by right. }
  apply Forall_app in Hall as [Hallb Hallrest].
  (* what is kept of the components after the destination is nothing *)
  assert (Hfold : fold_left (Py.normpath_step 1) (Py.split "/" rest) [] = []).
  { apply (f_equal (λ l, fold_left (Py.normpath_step 1) l [])) in Hsplit.
    rewrite fold_left_app, fold_plain in Hsplit by done.
    change (fold_left (Py.normpath_step 1) (Py.split "/" b) [])
      with (resolve b) in Hsplit.
    rewrite Hres, fold_drops_empty, (fold_valid R) in Hsplit by done.
    apply (app_inv_head R). rewrite app_nil_r. exact Hsplit. }
  pose proof (fold_nil_all_empty _ Hallrest Hfold) as Hempty.
  (* so the normalized join ends with an empty component *)
  apply (f_equal last) in Hsplit.
  destruct (Py.split "/" rest) as [|x xs _] eqn:Hx using rev_ind;
    [by apply split_nonempty in Hx|].
  rewrite app_assoc, last_snoc in Hsplit.
  apply Forall_app in Hempty as [_ Hlast]. apply Forall_inv in Hlast.
  simpl in Hlast. subst x.
  destruct (last R) as [y|] eqn:Hy.
  - rewrite last_app, Hy in Hsplit. injection Hsplit as <-.
    apply last_Some in Hy as [l' Hy]. rewrite Hy in Hvalid.
    by apply Forall_app in Hvalid as [_ Hy'%Forall_inv].
  - by apply last_None in Hy.
Qed.

(** X13.  An archive with an entry that names the destination itself
    (as [.] does) never passes the check of [_archive_paths_are_safe],
    unless the destination is the root: the normalized join is then the
    destination, which does not begin with the destination and a
    separator. *)
Theorem entry_naming_destination_is_rejected (destination : string)
    (names : list string) (n : string) :
  PyPath.isabs destination = true →
  Py.normpath_comps 1 destination ≠ [] →
  n ∈ names →
  Py.normpath_comps 1 (Py.join destination n) = Py.normpath_comps 1 destination →
  paths_are_safe destination names = false.
Proof.
  intros Habs Hroot Hn Hsame.
  rewrite paths_are_safe_IsSafe by (by apply isabs_nonempty).
  apply forallb_false. exists n. split; [done|].
  by rewrite name_of_destination_escapes.
Qed.

(** *** Plain names *)

Lemma str_join_cons (c : string) (cs : list string) :
  cs ≠ [] → Py.str_join "/" (c :: cs) = c +:+ "/" +:+ Py.str_join "/" cs.
Proof. by destruct cs. Qed.

Lemma str_join_app (l1 l2 : list string) :
  l1 ≠ [] → l2 ≠ [] →
  Py.str_join "/" (l1 ++ l2)
  = Py.str_join "/" l1 +:+ "/" +:+ Py.str_join "/" l2.
Proof.
  intros H1 H2. induction l1 as [|c l1 IH]; [done|]. clear H1.
  destruct l1 as [|c' l1].
  - by apply str_join_cons.
  - change ((c :: c' :: l1) ++ l2) with (c :: ((c' :: l1) ++ l2)).
    rewrite str_join_cons, IH, (str_join_cons c (c' :: l1)) by done.
    by rewrite !append_assoc.
Qed.

Lemma valid_name_first (c : string) :
  valid_name c = true → ∃ a c', c = String a c' ∧ a ≠ "/"%char.
Proof.
  intros (Hne & _ & _ & Hsplit)%valid_name_inv.
  destruct c as [|a c']; [done|]. exists a, c'. split; [done|].
  intros ->. simpl in Hsplit. by injection Hsplit.
Qed.

Lemma initial_slashes_shape (k : nat) (a : ascii) (s : string) :
  k = 1 ∨ k = 2 → a ≠ "/"%char →
  Py.initial_slashes (Py.slashes k +:+ String a s) = k.
Proof.
  intros [->| ->] Ha; unfold Py.initial_slashes, Py.startswith;
    [ change (Py.slashes 1 +:+ String a s) with (String "/" (String a s))
    | change (Py.slashes 2 +:+ String a s)
        with (String "/" (String "/" (String a s))) ];
    rewrite !string_prefix_cons;
    destruct (Ascii.ascii_dec "/" "/") as [_|?]; try done;
    destruct (Ascii.ascii_dec "/" a) as [<-|_]; done.
Qed.

(** The components of a normalized path do not end with an empty one. *)
Lemma last_component_named (k : nat) (comps : list string) :
  comps ≠ [] → Forall (λ c, valid_name c = true) comps →
  last (replicate k "" ++ comps) ≠ Some "".
Proof.
  intros Hne Hvalid. destruct comps as [|c comps _] using rev_ind; [done|].
  rewrite app_assoc, last_snoc. intros [= ->].
  by apply Forall_app in Hvalid as [_ Hc%Forall_inv].
Qed.

(** An absolute path in normal form, other than the root. *)
Lemma normal_form_shape (destination : string) :
  PyPath.isabs destination = true →
  Py.normpath destination = destination →
  resolve destination ≠ [] →
  ∃ k a s,
    (k = 1 ∨ k = 2) ∧ a ≠ "/"%char
    ∧ destination = Py.slashes k +:+ String a s
    ∧ Py.endswith destination "/" = false.
Proof.
  intros Habs Hnf Hroot.
  pose proof (normpath_absolute destination Habs) as Hshape.
  rewrite Hnf in Hshape.
  pose proof (resolve_valid destination) as Hvalid.
  assert (Hk : Py.initial_slashes destination = 1
               ∨ Py.initial_slashes destination = 2).
  { unfold Py.initial_slashes. unfold PyPath.isabs in Habs. rewrite Habs.
    destruct (_ && _); auto. }
  assert (Hfirst : ∃ a s, Py.str_join "/" (resolve destination) = String a s
                          ∧ a ≠ "/"%char).
  { destruct (resolve destination) as [|c comps]; [done|].
    apply Forall_cons in Hvalid as [(a & c' & -> & Ha)%valid_name_first _].
    destruct comps; by eauto. }
  destruct Hfirst as (a & s & Hjoin & Ha).
  exists (Py.initial_slashes destination), a, s.
  split_and!; [done|done|by rewrite <- Hjoin|].
  destruct (Py.endswith destination "/") eqn:He; [exfalso|done].
  apply endswith_inv in He as [b Hb].
  destruct (split_normpath_absolute destination Habs) as [k' Hsplit].
  rewrite Hnf in Hsplit. rewrite Hb in Hsplit at 1.
  rewrite <- (append_nil_r (b +:+ "/")), append_assoc, split_append_sep in Hsplit.
  apply (f_equal last) in Hsplit. simpl (Py.split "/" "") in Hsplit.
  rewrite last_snoc in Hsplit.
  destruct (resolve destination) as [|c comps] eqn:Hd; [done|].
  by apply (last_component_named k' (c :: comps)).
Qed.

(** A name made of plain components does not escape a destination in
    normal form. *)
Lemma plain_name_does_not_escape (destination n : string) :
  PyPath.isabs destination = true →
  Py.normpath destination = destination →
  resolve destination ≠ [] →
  Forall (λ c, valid_name c = true) (Py.split "/" n) →
  escapes destination n = false.
Proof.
  intros Habs Hnf Hroot Hn.
  destruct (normal_form_shape destination) as (k & a & s & Hk & Ha & Hd & Hend);
    [done..|].
  assert (Hnabs : Py.startswith n "/" = false).
  { destruct n as [|x n]; [done|]. unfold Py.startswith.
    rewrite string_prefix_cons. destruct (Ascii.ascii_dec "/" x) as [<-|]; [|done].
    simpl in Hn. by apply Forall_cons in Hn as [? _]. }
  assert (Hj : Py.join destination n = destination +:+ "/" +:+ n).
  { unfold Py.join. rewrite Hnabs, Hend.
    destruct (String.eqb_spec destination "") as [->|]; done. }
  assert (Hjabs : PyPath.isabs (destination +:+ "/" +:+ n) = true).
  { rewrite <- Hj. by apply join_absolute. }
  assert (Hr : resolve (destination +:+ "/" +:+ n)
               = resolve destination ++ Py.split "/" n).
  { unfold resolve, Py.normpath_comps.
    rewrite split_append_sep, fold_left_app. by apply fold_valid. }
  assert (Hi : Py.initial_slashes (destination +:+ "/" +:+ n) = k).
  { rewrite Hd, append_assoc, append_cons. by apply initial_slashes_shape. }
  assert (Hjoin : Py.str_join "/" (resolve destination) = String a s).
  { pose proof (normpath_absolute destination Habs) as Hshape.
    rewrite Hnf, Hd in Hshape at 1.
    assert (Hik : Py.initial_slashes destination = k).
    { rewrite Hd. by apply initial_slashes_shape. }
    rewrite Hik in Hshape. clear -Hshape.
    induction k as [|k IH]; [done|]. simpl in Hshape. injection Hshape as Hshape.
    by apply IH. }
  unfold escapes, with_trailing_separator. rewrite Hend, Hj. apply negb_false_iff.
  rewrite normpath_absolute, Hr, Hi by done.
  rewrite str_join_app, Hjoin by (done || apply split_nonempty).
  rewrite <- (append_assoc (Py.slashes k) (String a s)), <- Hd.
  rewrite <- (append_assoc destination "/"). apply prefix_append.
Qed.

(** X14.  The check of [_archive_paths_are_safe] lets every honest
    archive pass: with an absolute destination in normal form, other
    than the root, names whose components are plain names (none empty,
    [.] or [..]) are all safe. *)
Theorem plain_names_pass_the_check (destination : string) (names : list string) :
  PyPath.isabs destination = true →
  Py.normpath destination = destination →
  Py.normpath_comps 1 destination ≠ [] →
  Forall (λ n, Forall (λ c, valid_name c = true) (Py.split "/" n)) names →
  paths_are_safe destination names = true.
Proof.
  intros Habs Hnf Hroot Hnames.
  rewrite paths_are_safe_IsSafe by (by apply isabs_nonempty).
  apply forallb_forall. intros n Hn%list_elem_of_In.
  rewrite Forall_forall in Hnames.
  by rewrite plain_name_does_not_escape; [| | | |apply Hnames].
Qed.

(** *** What the calls of the publish phase write *)

Import Inside.

Lemma makedirs_touch (dirs : list (list string)) (t t' : tree) (res : result unit) :
  makedirs dirs t = (res, t') →
  ∀ p : list string,
    t' !! p = t !! p ∨ (p ∈ dirs ∧ t !! p = None ∧ t' !! p = Some Directory).
Proof.
  revert t. induction dirs as [|q dirs IH]; intros t Hrun p.
  - injection Hrun as _ <-. by left.
  - simpl in Hrun. destruct (t !! q) as [[| |]|] eqn:Hq.
    + injection Hrun as _ <-. by left.
    + injection Hrun as _ <-. by left.
    + destruct (IH _ Hrun p) as [Heq|(Hin & Hnone & Hd)]; [by left|].
      right. split_and!; [apply elem_of_cons; by right|done..].
    + destruct (decide (p = q)) as [->|Hne].
      * destruct (IH _ Hrun q) as [Heq|(_ & Hnone & _)].
        -- rewrite lookup_insert_eq in Heq. right.
           split_and!; [apply elem_of_cons; by left|done..].
        -- by rewrite lookup_insert_eq in Hnone.
      * destruct (IH _ Hrun p) as [Heq|(Hin & Hnone & Hd)];
          rewrite lookup_insert_ne in * by done; [by left|].
        right. split_and!; [apply elem_of_cons; by right|done..].
Qed.

(** Whatever its result, the extraction of a member leaves an entry as
    it was, or makes a missing directory above the target, or writes
    the target; it never writes an archive. *)
Lemma extract_member_touch (destination : string) (m : member) (t t' : tree)
    (res : result unit) :
  extract_member destination m t = (res, t') →
  ∀ p : list string,
    t' !! p = t !! p
    ∨ (p ∈ ancestors (resolve (Py.join destination (member_name m)))
       ∧ t !! p = None ∧ t' !! p = Some Directory)
    ∨ (p = resolve (Py.join destination (member_name m))
       ∧ ∃ v, t' !! p = Some v ∧ is_tarball v = false).
Proof.
  unfold extract_member. intros Hrun p.
  set (target := resolve (Py.join destination (member_name m))) in *.
  destruct (makedirs (ancestors target) t) as [[[]|e] t1] eqn:Hmk;
    pose proof (makedirs_touch _ _ _ _ Hmk p) as Hp1.
  2: { injection Hrun as _ <-. destruct Hp1; auto. }
  assert (Hins : ∀ v, is_tarball v = false →
                  (<[target := v]> t1) !! p = t !! p
                  ∨ (p ∈ ancestors target ∧ t !! p = None
                     ∧ (<[target := v]> t1) !! p = Some Directory)
                  ∨ (p = target
                     ∧ ∃ v', (<[target := v]> t1) !! p = Some v'
                             ∧ is_tarball v' = false)).
  { intros v Hv. destruct (decide (p = target)) as [->|Hne].
    - right; right. split; [done|]. exists v. by rewrite lookup_insert_eq.
    - rewrite lookup_insert_ne by done. destruct Hp1; auto. }
  destruct (member_body m) as [data|].
  - destruct (is_directory (t1 !! target)); injection Hrun as _ <-.
    + destruct Hp1; auto.
    + by apply Hins.
  - destruct (t1 !! target) as [[| |]|]; injection Hrun as _ <-;
      first [by apply Hins | destruct Hp1; by auto].
Qed.

Section Kept.

Context {K : Type}.
Variables (destination : string) (t0 : tree).

(** What the publish phase keeps: the archives are those of [t0], and
    outside the destination the tree is [t0]. *)
Local Abbreviation kept t :=
  (archives_from t0 t ∧ same_outside (resolve destination) t0 t).

Hypothesis above :
  ∀ q : list string,
    q `prefix_of` resolve destination → q ≠ resolve destination → is_Some (t0 !! q).

Lemma extract_member_inside (m : member) (t t' : tree) (res : result unit) :
  resolve destination `prefix_of` resolve (Py.join destination (member_name m)) →
  kept t → extract_member destination m t = (res, t') → kept t'.
Proof.
  intros Hin [Harch Hout] Hrun. split.
  - intros p members Hp.
    destruct (extract_member_touch _ _ _ _ _ Hrun p)
      as [Heq | [(_ & _ & Hd) | (_ & v & Hv & Hnt)]].
    + apply Harch. by rewrite <- Heq.
    + congruence.
    + rewrite Hv in Hp. injection Hp as ->. done.
  - intros p Hp.
    destruct (extract_member_touch _ _ _ _ _ Hrun p)
      as [Heq | [(Hanc & Hnone & _) | (-> & _)]].
    + rewrite Heq. by apply Hout.
    + apply ancestors_prefix in Hanc.
      destruct (prefix_weak_total _ _ _ Hanc Hin) as [Hpd|Hdp]; [|done].
      destruct (above p Hpd) as [v Hv]; [by intros ->|].
      rewrite Hout, Hv in Hnone by done. done.
    + done.
Qed.

Lemma extract_members_inside (members : list member) (t t' : tree)
    (res : result unit) :
  members_inside destination members →
  kept t → extract_members members destination t = (res, t') → kept t'.
Proof.
  revert t. induction members as [|m members IH]; intros t Hin Ht Hrun.
  - by injection Hrun as _ <-.
  - apply Forall_cons in Hin as [Hm Hin]. simpl in Hrun.
    destruct (extract_member destination m t) as [[[]|e] t1] eqn:Hone;
      pose proof (extract_member_inside m t t1 _ Hm Ht Hone) as Ht1.
    + by apply (IH t1).
    + by injection Hrun as _ <-.
Qed.

Lemma extract_unit_inside (u : AssociatedUnit K) (t t' : tree) (res : result unit) :
  unit_inside destination t0 u →
  kept t → extract_unit destination u t = (res, t') → kept t'.
Proof.
  intros Hu Ht. unfold extract_unit. simpl. unfold open_archive.
  destruct (t !! resolve (storage_path u)) as [[data|members|]|] eqn:Hlook;
    try by intros [= _ <-].
  intros Hrun. apply (extract_members_inside members t t' res); [|done..].
  apply Hu. by apply Ht.
Qed.

End Kept.

(** The world after the loop of the publish phase has what every pass
    of the loop keeps. *)
Lemma publish_loop_keeps {K : Type} (I : tree → Prop)
    (self : PuppetModuleInstallDistributor) (destination : string)
    (units : list (AssociatedUnit K)) (σ σ' : @state K tree) (res : result unit) :
  (∀ u w r w', u ∈ units → I w → extract_unit destination u w = (r, w') → I w') →
  I (world σ) →
  for_each units (publish_unit self destination) σ = (res, σ') →
  I (world σ').
Proof.
  revert σ. induction units as [|u units IH]; intros σ Hstep HI Hrun.
  - by injection Hrun as _ <-.
  - simpl in Hrun. unfold mbind, M_bind in Hrun.
    destruct (publish_unit_runs self destination u σ) as (t & Hu & _).
    unfold runs in Hu. rewrite Hu in Hrun.
    destruct (extract_unit destination u (world σ)) as [r w1] eqn:Hex.
    simpl in Hrun.
    assert (Hw1 : I w1) by (eapply Hstep; [by left|done..]).
    destruct (publish_unit_result r) as [[]|e].
    + apply (IH (after (detail_report self) σ t w1)); [|done..].
      intros u' w r' w' Hu'. apply Hstep. by right.
    + by injection Hrun as _ <-.
Qed.

(** Clearing, whatever its result, only takes entries away, and none
    outside the destination. *)
Lemma clear_world_inside (destination : string) (t t' : tree) (res : result unit) :
  well_formed t →
  clear_world destination t = (res, t') →
  (∀ p, t' !! p = None ∨ t' !! p = t !! p)
  ∧ same_outside (resolve destination) t t'.
Proof.
  intros Hwf Hrun.
  destruct (is_directory (t !! resolve destination)) eqn:Hd.
  - apply is_directory_true in Hd.
    destruct (clear_world_spec destination t) as (t'' & Heq & _ & Hout & Hshrink);
      [intros c; apply well_formed_names; done|done|].
    rewrite Heq in Hrun. injection Hrun as _ <-. split; [done|].
    intros p Hp. apply Hout. intros (c & Hpre & _). apply Hp.
    etrans; [|done]. by apply prefix_app_r.
  - unfold clear_world in Hrun. simpl in Hrun. unfold list_directory in Hrun.
    destruct (t !! resolve destination) as [[| |]|]; try done;
      injection Hrun as _ <-; (split; [by right|done]).
Qed.

(** A unit the check passes without a word unpacks inside the
    destination. *)
Lemma checked_unit_inside {K : Type} (destination : string) (t : tree)
    (u : AssociatedUnit K) :
  PyPath.isabs destination = true →
  check_unit destination t u = Ok None →
  unit_inside destination t u.
Proof.
  intros Habs Hcheck members Hlook. unfold check_unit in Hcheck.
  simpl in Hcheck. unfold open_archive, archive_names in Hcheck.
  rewrite Hlook in Hcheck.
  destruct (paths_are_safe destination (member_name <$> members)) eqn:Hsafe;
    [|done].
  apply Forall_forall. intros m Hm.
  apply (safe_names_lead_inside destination (member_name <$> members)); [done..|].
  by apply list_elem_of_fmap_2.
Qed.

Lemma check_errors_nil {K : Type} (destination : string) (t : tree)
    (units : list (AssociatedUnit K)) :
  check_errors destination t units = [] →
  Forall (λ u, is_ok (check_unit destination t u) = true) units →
  Forall (λ u, check_unit destination t u = Ok None) units.
Proof.
  intros Hnil Hok. rewrite Forall_forall in Hok. apply Forall_forall.
  intros u Hu. specialize (Hok u Hu).
  destruct (check_unit destination t u) as [[msg|]|e] eqn:Hc; [|done..].
  assert (Hin : (unit_key u, msg) ∈ check_errors destination t units).
  { unfold check_errors. apply list_elem_of_omap. exists u. by rewrite Hc. }
  rewrite Hnil in Hin. by apply elem_of_nil in Hin.
Qed.

Lemma apply_writes_written (ws : list (list string * node)) (t : tree)
    (p : list string) :
  p ∈ ws.*1 → is_Some (apply_writes ws t !! p).
Proof.
  induction ws as [|[q v] ws IH] using rev_ind; [by intros ?%elem_of_nil|].
  rewrite fmap_app, apply_writes_app. simpl.
  destruct (decide (p = q)) as [->|Hne].
  - intros _. by rewrite lookup_insert_eq.
  - rewrite lookup_insert_ne by done.
    intros [Hin|Hin%list_elem_of_singleton]%elem_of_app; [by apply IH|done].
Qed.

Section Publish.

Context {K : Type}.
Variables CONFIG_INSTALL_PATH TYPE_PUPPET_MODULE : string.



End Publish.

(** *** Clearing again *)

(** X11.  Clearing a destination twice is clearing it once: after a
    clearing that went through on a well-formed tree, clearing again
    goes through and leaves the tree as it is. *)
Theorem clearing_twice_is_clearing_once {K : Type} (destination : string)
    (σ σ1 : @state K tree) :
  well_formed (world σ) →
  _clear_destination_directory destination σ = (Ok (), σ1) →
  ∃ σ2 : @state K tree,
    _clear_destination_directory destination σ1 = (Ok (), σ2)
    ∧ world σ2 = world σ1.
Proof.
  intros Hwf Hrun. set (d := resolve destination).
  destruct (clear_runs 1%positive destination σ) as (t1 & Hruns1 & _).
  unfold runs in Hruns1. rewrite Hrun in Hruns1.
  destruct (clear_world destination (world σ)) as [res1 w1] eqn:Hcw.
  injection Hruns1 as <- ->. simpl.
  pose proof (Reinstall.clear_world_ok_inv _ _ _ Hcw) as Hdir.
  destruct (clear_world_spec destination (world σ)) as (w1' & Hcw' & Hgone & Hkept & Hshrink);
    [intros c; by apply well_formed_names|done|].
  rewrite Hcw in Hcw'. injection Hcw' as <-. fold d in Hgone, Hkept, Hdir.
  (* no child of the destination is a directory any more *)
  assert (Hnone : ∀ p, ¬ below_subdirectory d w1 p).
  { intros p (c & _ & Hc).
    assert (Hbelow : below_subdirectory d (world σ) (d ++ [c])).
    { exists c. split; [done|]. destruct (Hshrink (d ++ [c])) as [Hn|<-]; [|done].
      congruence. }
    apply Hgone in Hbelow. congruence. }
  destruct (clear_world_spec destination w1) as (w2 & Hcw2 & _ & Hkept2 & _).
  { intros c [v Hv]. apply (well_formed_names (world σ) c d); [done|].
    fold d in Hv. destruct (Hshrink (d ++ [c])) as [Hn|<-]; [congruence|done]. }
  { fold d. rewrite Hkept; [done|]. intros (c & Hpre & _).
    apply prefix_length in Hpre. rewrite length_app in Hpre. simpl in Hpre. lia. }
  assert (Hw2 : w2 = w1).
  { apply map_eq. intros p. apply Hkept2, Hnone. }
  subst w2.
  set (σ1 := after 1%positive σ t1 w1).
  destruct (clear_runs 1%positive destination σ1) as (t2 & Hruns2 & _).
  unfold runs in Hruns2. change (world σ1) with w1 in Hruns2.
  rewrite Hcw2 in Hruns2. simpl in Hruns2.
  exists (after 1%positive σ1 t2 w1). by split.
Qed.

End Containment.

(** ** No archive is left in use *)

Section HandleDiscipline.

Context {K : Type} {World : Type} `{!OS World}.
Variables CONFIG_INSTALL_PATH TYPE_PUPPET_MODULE : string.
Implicit Types (σ : @state K World) (t : list (@call K)) (s : handle_state).

Local Abbreviation closes m := (closes_its_archives (K := K) (World := World) m).

Lemma handle_run_app s t1 t2 :
  handle_run s (t1 ++ t2) = handle_run s t1 ≫= λ s', handle_run s' t2.
Proof.
  revert s. induction t1 as [|c t1 IH]; intros s; [done|].
  simpl. destruct (handle_step s c); [apply IH|done].
Qed.

Lemma closes_ret {A} (a : A) : closes (mret a).
Proof. intros σ. exists [], no_archive. by rewrite app_nil_r. Qed.

Lemma closes_bind {A B} (m : M A) (f : A → M B) :
  closes m → (∀ a, closes (f a)) → closes (m ≫= f).
Proof.
  intros Hm Hf σ. destruct (Hm σ) as (t1 & s1 & Ht1 & Hs1 & Hres1).
  unfold mbind, M_bind. destruct (m σ) as [[a|e] σ1]; simpl in *.
  - subst s1. destruct (Hf a σ1) as (t2 & s2 & Ht2 & Hs2 & Hres2).
    exists (t1 ++ t2), s2. split_and!; [|..|done].
    + by rewrite Ht2, Ht1, app_assoc.
    + by rewrite handle_run_app, Hs1.
  - by exists t1, s1.
Qed.

Lemma closes_for_each {A} (xs : list A) (body : A → M unit) :
  (∀ x, closes (body x)) → closes (for_each xs body).
Proof.
  intros Hbody. induction xs as [|x xs IH]; simpl.
  - apply closes_ret.
  - apply closes_bind; [apply Hbody|]. by intros _.
Qed.

(** The shape of the log of one pass of either loop. *)
Tactic Notation "one_pass" uconstr(t) uconstr(s) :=
  exists t, s; split_and!;
    [ by rewrite <- ?app_assoc
    | by repeat (progress (simpl; rewrite ?String.eqb_refl))
    | done ].

Lemma check_archive_closes (self : PuppetModuleInstallDistributor)
    (destination : string) (u : AssociatedUnit K) :
  closes (check_archive self destination u).
Proof.
  intros σ. unfold check_archive. unfold_run.
  set (p := storage_path u). set (k := unit_key u).
  destruct (sys_open p (world σ)) as [h|[msg|msg]]; simpl.
  - destruct (sys_getnames h (world σ)) as [names|[msg|msg]]; simpl.
    + destruct (paths_are_safe destination names); simpl.
      * one_pass [call_open p; call_getnames p; call_close p] no_archive.
      * one_pass [call_open p; call_getnames p; call_error k ERROR_MESSAGE_PATH;
                  call_close p] no_archive.
    + one_pass [call_open p; call_getnames p; call_close p; call_error k msg]
        no_archive.
    + one_pass [call_open p; call_getnames p; call_close p] no_archive.
  - one_pass [call_open p; call_error k msg] no_archive.
  - one_pass [call_open p] (opening p).
Qed.

Lemma publish_unit_closes (self : PuppetModuleInstallDistributor)
    (destination : string) (u : AssociatedUnit K) :
  closes (publish_unit self destination u).
Proof.
  intros σ. unfold publish_unit. unfold_run.
  set (p := storage_path u). set (k := unit_key u).
  destruct (sys_open p (world σ)) as [h|[msg|msg]]; simpl.
  - destruct (sys_extractall h destination (world σ)) as [[[]|[msg|msg]] w']; simpl.
    + one_pass [call_open p; call_extractall p destination; call_close p;
                call_success k] no_archive.
    + one_pass [call_open p; call_extractall p destination; call_close p;
                call_error k msg] no_archive.
    + one_pass [call_open p; call_extractall p destination; call_close p]
        no_archive.
  - one_pass [call_open p; call_error k msg] no_archive.
  - one_pass [call_open p] (opening p).
Qed.

Lemma clearing_calls_keep_closed t :
  forallb is_clearing t = true → handle_run no_archive t = Some no_archive.
Proof.
  induction t as [|c t IH]; [done|].
  intros [Hc Ht]%andb_true_iff. by destruct c; simpl in *; try apply IH.
Qed.

Lemma clearing_opens_no_archive (destination : string) σ :
  ∃ t, trace (_clear_destination_directory destination σ).2 = trace σ ++ t
       ∧ handle_run no_archive t = Some no_archive.
Proof.
  destruct (clear_runs 1%positive destination σ) as (t & Hrun & _ & _ & Hc & _).
  unfold runs in Hrun. rewrite Hrun. simpl.
  exists t. split; [done|by apply clearing_calls_keep_closed].
Qed.

(** X12.  A run of [publish_repo] leaves no archive in use, whatever
    its result: in the log of its calls an archive is read or extracted
    right after it was opened, and is closed before any other call of
    the libraries, also when the reading or the extraction raised.  A
    run that returns a report ends with every archive closed; a run
    that raises ends there or at the [tarfile.open] that raised. *)
Theorem publish_repo_leaves_no_archive_in_use
    (self : PuppetModuleInstallDistributor) (repo : Repository)
    (publish_conduit : RepoPublishConduit K) (config : gmap string string) :
  closes_its_archives
    (publish_repo CONFIG_INSTALL_PATH TYPE_PUPPET_MODULE
       self repo publish_conduit config).
Proof.
  intros σ.
  set (units := get_units publish_conduit [TYPE_PUPPET_MODULE]).
  destruct (config !! CONFIG_INSTALL_PATH) as [destination|] eqn:Hcfg; cycle 1.
  { rewrite phase_not_provided by auto. exists [], no_archive.
    by rewrite app_nil_r. }
  destruct (decide (destination = "")) as [->|Hne].
  { rewrite phase_not_provided by auto. exists [], no_archive.
    by rewrite app_nil_r. }
  (* the check phase *)
  destruct (closes_for_each units (check_archive self destination)
              (check_archive_closes self destination) σ)
    as (t1 & s1 & Ht1 & Hs1 & Hres1).
  fold (_check_for_unsafe_archive_paths self units destination) in Ht1, Hres1.
  destruct (_check_for_unsafe_archive_paths self units destination σ)
    as [[[]|e] σ1] eqn:Hcheck; simpl in *; cycle 1.
  { rewrite (phase_check_raises _ _ _ _ _ _ _ _ _ _ Hcfg Hne Hcheck).
    by exists t1, s1. }
  subst s1. destruct (errs self σ1) eqn:Herrs.
  { rewrite (phase_check_fails _ _ _ _ _ _ _ _ _ Hcfg Hne Hcheck Herrs).
    by exists t1, no_archive. }
  (* the clearing *)
  destruct (clearing_opens_no_archive destination σ1) as (t2 & Ht2 & Hs2).
  assert (Hs12 : handle_run no_archive (t1 ++ t2) = Some no_archive)
    by by rewrite handle_run_app, Hs1.
  destruct (_clear_destination_directory destination σ1)
    as [[[]|e] σ2] eqn:Hclear; simpl in *; cycle 1.
  { rewrite (phase_clear_raises _ _ _ _ _ _ _ _ _ _ _ Hcfg Hne Hcheck Herrs Hclear).
    exists (t1 ++ t2), no_archive. simpl.
    split_and!; [by rewrite Ht2, Ht1, app_assoc|done|by destruct e]. }
  (* the publish phase *)
  destruct (closes_for_each units (publish_unit self destination)
              (publish_unit_closes self destination) σ2)
    as (t3 & s3 & Ht3 & Hs3 & Hres3).
  destruct (for_each units (publish_unit self destination) σ2)
    as [res3 σ3] eqn:Hloop; simpl in *.
  rewrite (phase_publish _ _ _ _ _ _ _ _ _ _ _ _ Hcfg Hne Hcheck Herrs Hclear Hloop).
  exists ((t1 ++ t2) ++ t3), s3. simpl. split_and!.
  - by rewrite Ht3, Ht2, Ht1, !app_assoc.
  - by rewrite handle_run_app, Hs12.
  - by destruct res3.
Qed.

End HandleDiscipline.

(** ** Further theorems at work on the example disk *)

Module MoreWitnesses.

Import MemFS MemFSFacts Example Witnesses Containment.

(** A file that is no archive, as a unit. *)
Local Abbreviation unit_notes :=
  ({| unit_key := "notes"; storage_path := "/var/notes.txt" |}
   : AssociatedUnit string).

Local Abbreviation validated_config :=
  ({[ CONFIG_INSTALL_PATH := Str "/srv/puppet" ]} : gmap string config_value).

Lemma publish_repo_ends_in_one_of_seven_ways_witness :
  publish_outcome CONFIG_INSTALL_PATH installer (conduit [unit_mymodule])
    (config "/srv/puppet") (boot disk)
    (publish_repo CONFIG_INSTALL_PATH TYPE_PUPPET_MODULE installer repo
       (conduit [unit_mymodule]) (config "/srv/puppet") (boot disk)).1
    (publish_repo CONFIG_INSTALL_PATH TYPE_PUPPET_MODULE installer repo
       (conduit [unit_mymodule]) (config "/srv/puppet") (boot disk)).2.
Proof.
  refine (publish_repo_ends_in_one_of_seven_ways
            CONFIG_INSTALL_PATH TYPE_PUPPET_MODULE installer repo
            (conduit [unit_mymodule]) (config "/srv/puppet") (boot disk) _).
  exists empty_report. run_result.
Defined.

Lemma recorded_error_blocks_later_runs_witness :
  world (publish [unit_mymodule] "/srv/puppet" (checked [unit_evil] "/srv/puppet")).2
    = world (checked [unit_evil] "/srv/puppet")
  ∧ (Ok (build_failure_report "failed" 1%positive)
       = Ok (build_failure_report "failed" (detail_report installer))
     ∨ ∃ e, Ok (build_failure_report "failed" 1%positive) = Raise e)
  ∧ ∃ t,
      trace (publish [unit_mymodule] "/srv/puppet"
               (checked [unit_evil] "/srv/puppet")).2
        = trace (checked [unit_evil] "/srv/puppet") ++ t
      ∧ forallb is_inspection t = true.
Proof.
  refine (recorded_error_blocks_later_runs
            CONFIG_INSTALL_PATH TYPE_PUPPET_MODULE installer repo
            (conduit [unit_mymodule]) (config "/srv/puppet") "/srv/puppet"
            (checked [unit_evil] "/srv/puppet")
            (Ok (build_failure_report "failed" 1%positive))
            (publish [unit_mymodule] "/srv/puppet"
               (checked [unit_evil] "/srv/puppet")).2 _ _ _ _).
  - run_result.
  - discriminate.
  - run_result.
  - refine (run_to_its_state (publish [unit_mymodule] "/srv/puppet")
              (checked [unit_evil] "/srv/puppet") _ _).
    run_result.
Defined.

Lemma returned_report_agrees_with_detail_witness :
  details (build_success_report "success" 1%positive) = detail_report installer
  ∧ (success_flag (build_success_report "success" 1%positive) = true
     ↔ summary (build_success_report "success" 1%positive) = "success")
  ∧ (success_flag (build_success_report "success" 1%positive) = true →
       errs installer (published [unit_mymodule] "/srv/puppet") = false)
  ∧ (summary (build_success_report "success" 1%positive) = "failed" →
       errs installer (published [unit_mymodule] "/srv/puppet") = true).
Proof.
  refine (returned_report_agrees_with_detail
            CONFIG_INSTALL_PATH TYPE_PUPPET_MODULE installer repo
            (conduit [unit_mymodule]) (config "/srv/puppet") (boot disk)
            (build_success_report "success" 1%positive)
            (published [unit_mymodule] "/srv/puppet") _ _).
  - exists empty_report. run_result.
  - refine (run_to_its_state (publish [unit_mymodule] "/srv/puppet") (boot disk) _ _).
    run_result.
Defined.

Lemma publish_repo_only_appends_to_its_report_witness :
  (∀ l, l ≠ detail_report installer →
     heap (published [unit_mymodule; unit_clash] "/srv/puppet") !! l
     = heap (boot disk) !! l)
  ∧ ∃ r r',
      heap (boot disk) !! detail_report installer = Some r
      ∧ heap (published [unit_mymodule; unit_clash] "/srv/puppet")
          !! detail_report installer = Some r'
      ∧ success_unit_keys r `prefix_of` success_unit_keys r'
      ∧ errors r `prefix_of` errors r'.
Proof.
  refine (publish_repo_only_appends_to_its_report
            CONFIG_INSTALL_PATH TYPE_PUPPET_MODULE installer repo
            (conduit [unit_mymodule; unit_clash]) (config "/srv/puppet") (boot disk)
            (Ok (build_failure_report "failed" 1%positive))
            (published [unit_mymodule; unit_clash] "/srv/puppet") _ _).
  - exists empty_report. run_result.
  - refine (run_to_its_state (publish [unit_mymodule; unit_clash] "/srv/puppet")
              (boot disk) _ _).
    run_result.
Defined.

Lemma other_exception_leaves_publish_repo_witness :
  ∃ t,
    publish_repo CONFIG_INSTALL_PATH TYPE_PUPPET_MODULE installer repo
      (conduit [unit_mymodule; unit_notes; unit_evil]) (config "/srv/puppet")
      (boot disk)
      = (Raise read_error,
         after (detail_report installer) (boot disk) t (world (boot disk)))
    ∧ opened t = storage_path <$> ([unit_mymodule] ++ [unit_notes])
    ∧ forallb is_inspection t = true.
Proof.
  refine (other_exception_leaves_publish_repo
            CONFIG_INSTALL_PATH TYPE_PUPPET_MODULE installer repo
            (conduit [unit_mymodule; unit_notes; unit_evil]) (config "/srv/puppet")
            "/srv/puppet" (boot disk) [unit_mymodule] unit_notes [unit_evil]
            read_error _ _ _ _ _).
  - run_result.
  - discriminate.
  - reflexivity.
  - repeat constructor.
  - run_result.
Defined.

Lemma validated_path_is_provided_witness :
  (validate_config CONFIG_INSTALL_PATH repo validated_config [] disk).2 = None
  ∧ PyPath.isabs "/srv/puppet" = true
  ∧ sys_isdir "/srv/puppet" disk = true
  ∧ sys_access "/srv/puppet" (Nat.lor (Nat.lor R_OK W_OK) X_OK) disk = true
  ∧ ∀ self repo' (publish_conduit : RepoPublishConduit string)
      (σ : @state string tree) report σ',
      is_Some (heap σ !! detail_report self) →
      publish_repo CONFIG_INSTALL_PATH TYPE_PUPPET_MODULE self repo' publish_conduit
        (strings_of validated_config) σ = (Ok report, σ') →
      summary report ≠ "install path not provided".
Proof.
  refine (validated_path_is_provided
            CONFIG_INSTALL_PATH TYPE_PUPPET_MODULE repo validated_config []
            disk "/srv/puppet" _ _).
  - run_result.
  - run_result.
Defined.

Lemma safe_name_leads_into_destination_witness :
  Py.normpath_comps 1 "/srv/puppet"
    `prefix_of` Py.normpath_comps 1
                  (Py.join "/srv/puppet" "mymodule/manifests/init.pp").
Proof.
  refine (safe_name_leads_into_destination "/srv/puppet"
            ["mymodule"; "mymodule/manifests/init.pp"] _ _
            "mymodule/manifests/init.pp" _).
  - reflexivity.
  - reflexivity.
  - apply elem_of_cons. right. apply elem_of_cons. by left.
Defined.

Lemma entry_naming_destination_is_rejected_witness :
  paths_are_safe "/srv/puppet" ["mymodule"; "./"] = false.
Proof.
  refine (entry_naming_destination_is_rejected "/srv/puppet"
            ["mymodule"; "./"] "./" _ _ _ _).
  - reflexivity.
  - discriminate.
  - apply elem_of_cons. right. apply elem_of_cons. by left.
  - reflexivity.
Defined.

Lemma plain_names_pass_the_check_witness :
  paths_are_safe "/srv/puppet" ["mymodule"; "mymodule/manifests/init.pp"] = true.
Proof.
  refine (plain_names_pass_the_check "/srv/puppet"
            ["mymodule"; "mymodule/manifests/init.pp"] _ _ _ _).
  - reflexivity.
  - reflexivity.
  - discriminate.
  - repeat constructor.
Defined.



Lemma clearing_twice_is_clearing_once_witness :
  ∃ σ2 : @state string tree,
    _clear_destination_directory "/srv/puppet"
      (_clear_destination_directory "/srv/puppet" (boot disk)).2 = (Ok (), σ2)
    ∧ world σ2 = world (_clear_destination_directory "/srv/puppet" (boot disk)).2.
Proof.
  refine (clearing_twice_is_clearing_once "/srv/puppet" (boot disk)
            (_clear_destination_directory "/srv/puppet" (boot disk)).2 _ _).
  - exact disk_well_formed.
  - refine (run_to_its_state (_clear_destination_directory "/srv/puppet")
              (boot disk) _ _).
    run_result.
Defined.

End MoreWitnesses.
